(** * schedulebuddy: the calendar store of [data_handling.py]

    A shallow embedding of [Database.add_event] (the insertion check of a
    user's calendar) and of [Database.get_inverse_schedule] (the sweep that
    computes the free time common to several users), with the properties
    the specification states about them.

    Times are Python integers, modelled as [Z].  The SQLite tables are
    modelled as lists of rows in insertion order; the columns are the ones
    the queries of [data_handling.py] name. *)

From Stdlib Require Import String ZArith List Bool Lia Arith Sorting.Sorted.
From Stdlib Require Import Sorting.Permutation.
From Equations Require Import Equations.
Import ListNotations.

Local Open Scope Z_scope.

(** ** Data model *)

(** [Event = namedtuple('Event', ['username', 'event_name', 'start_time',
    'end_time', 'mon', ..., 'sun'])]. *)
Record Event : Type := mkEvent {
  username : string;
  event_name : string;
  start_time : Z;
  end_time : Z;
  mon : bool; tue : bool; wed : bool; thur : bool;
  fri : bool; sat : bool; sun : bool
}.

(** The messages of the [ValueError]s raised in [data_handling.py], one
    constructor per format string, carrying the formatted arguments. *)
Inductive ValueError : Type :=
| UsernameDoesNotExist (name : string)
    (* "Username {0} doesn't exist" *)
| UsernameTaken (name : string)
    (* "Username {0} is already taken" *)
| StartAfterEnd (start_t end_t : Z)
    (* "Event has start time {0} which is after end time {1}" *)
| StartsBeforeEnds (ev : string) (start_t : Z) (prev : string) (prev_end : Z)
    (* "Event {0} starts at {1} before event {2} ends at {3}" *)
| EndsAfterStarts (ev : string) (end_t : Z) (next : string) (next_start : Z)
    (* "Event {0} ends at {1} after event {2} starts at {3}" *)
| UserDoesNotExist (name : string).
    (* "User {0} doesn't exist" *)

(** What a call does: it returns a value or raises. *)
Inductive result (A : Type) : Type :=
| Ok (a : A)
| Raise (e : ValueError).
Arguments Ok {A} a.
Arguments Raise {A} e.

(** Rows of the tables [users], [events] and [recurring]. *)
Record UserRow : Type := mkUserRow {
  user_id : nat;
  u_username : string;
  u_password : string
}.

Record EventRow : Type := mkEventRow {
  event_id : nat;
  e_user_id : nat;
  e_event_name : string;
  e_start_time : Z;
  e_end_time : Z
}.

Record RecurringRow : Type := mkRecurringRow {
  r_event_id : nat;
  r_mon : bool; r_tue : bool; r_wed : bool; r_thur : bool;
  r_fri : bool; r_sat : bool; r_sun : bool
}.

Record Database : Type := mkDatabase {
  users : list UserRow;
  events : list EventRow;
  recurring : list RecurringRow
}.

Definition empty_db : Database := mkDatabase [] [] [].

(** ** Reading the store *)

(** The usernames that [SELECT username FROM users] yields. *)
Definition usernames (db : Database) : list string :=
  map u_username (users db).

Definition username_in (name : string) (db : Database) : bool :=
  existsb (String.eqb name) (usernames db).

(** [ORDER BY end_time]: rows are put in ascending order of [end_time];
    rows with equal [end_time] keep the order of the scan (SQL leaves it
    open; the theorems on the checks below hold for every end-sorted
    list). *)
Fixpoint insert_by_end (e : Event) (l : list Event) : list Event :=
  match l with
  | [] => [e]
  | x :: l' =>
      if end_time e <=? end_time x then e :: l else x :: insert_by_end e l'
  end.

Definition order_by_end (l : list Event) : list Event :=
  fold_right insert_by_end [] l.

(** The rows of [events JOIN users JOIN recurring WHERE username = ?]. *)
Definition joined_rows (db : Database) (name : string) : list Event :=
  flat_map (fun ev =>
    flat_map (fun u =>
      if (Nat.eqb (e_user_id ev) (user_id u) && String.eqb (u_username u) name)%bool
      then
        flat_map (fun r =>
          if Nat.eqb (event_id ev) (r_event_id r)
          then [mkEvent name (e_event_name ev) (e_start_time ev) (e_end_time ev)
                  (r_mon r) (r_tue r) (r_wed r) (r_thur r)
                  (r_fri r) (r_sat r) (r_sun r)]
          else [])
          (recurring db)
      else [])
      (users db))
    (events db).

(** [Database.get_sorted_events]. *)
Definition get_sorted_events (db : Database) (name : string)
  : result (list Event) :=
  if negb (username_in name db) then Raise (UsernameDoesNotExist name)
  else Ok (order_by_end (joined_rows db name)).

(** [Database.get_id]: [fetchone] of the rows with that username. *)
Definition get_id (db : Database) (name : string) : result nat :=
  match find (fun u => String.eqb (u_username u) name) (users db) with
  | None => Raise (UserDoesNotExist name)
  | Some u => Ok (user_id u)
  end.

(** ** Writing the store *)

(** The row id SQLite gives a new row of a table that never deletes. *)
Definition next_rowid {A : Type} (rows : list A) : nat := S (length rows).

(** [Database.add_user]. *)
Definition add_user (db : Database) (name password : string)
  : result unit * Database :=
  if username_in name db then (Raise (UsernameTaken name), db)
  else (Ok tt,
        mkDatabase (users db ++ [mkUserRow (next_rowid (users db)) name password])
                   (events db) (recurring db)).

(** [bisect.bisect_left(a, x)] of the Python standard library:
    [lo, hi = 0, len(a)]; [while lo < hi: mid = (lo + hi) // 2;
    if a[mid] < x: lo = mid + 1 else: hi = mid]; [return lo]. *)
Equations? bisect_loop (a : list Z) (x : Z) (lo hi : nat) : nat
  by wf (hi - lo)%nat lt :=
  bisect_loop a x lo hi with lt_dec lo hi => {
    | left _ =>
        if nth ((lo + hi) / 2)%nat a 0 <? x
        then bisect_loop a x (S ((lo + hi) / 2)%nat) hi
        else bisect_loop a x lo ((lo + hi) / 2)%nat
    | right _ => lo }.
Proof.
  all: change (fst (Nat.divmod (lo + hi) 1 0 1)) with ((lo + hi) / 2)%nat.
  all: assert (lo <= (lo + hi) / 2)%nat
         by (apply Nat.div_le_lower_bound; lia).
  all: assert ((lo + hi) / 2 < hi)%nat
         by (apply Nat.Div0.div_lt_upper_bound; lia).
  all: lia.
Defined.

Definition bisect_left (a : list Z) (x : Z) : nat :=
  bisect_loop a x 0%nat (length a).

(** [days.get(weekday, False)] on the keyword arguments of [add_event]. *)
Fixpoint days_get (days : list (string * bool)) (weekday : string) : bool :=
  match days with
  | [] => false
  | (k, v) :: rest => if String.eqb k weekday then v else days_get rest weekday
  end.

(** Line 76 of [add_event]: the check against the event just before the
    placement.  [sorted_events[new_event_placement-1]] is [nth_error]; the
    index is in range whenever the guard holds. *)
Definition previous_check (sorted_events : list Event)
  (new_event_placement : nat) (name : string) (start_t : Z)
  : option ValueError :=
  if (0 <? new_event_placement)%nat then
    match nth_error sorted_events (new_event_placement - 1) with
    | Some prev =>
        if start_t <? end_time prev
        then Some (StartsBeforeEnds name start_t
                     (event_name prev) (end_time prev))
        else None
    | None => None
    end
  else None.

(** Line 80 of [add_event]: the check against the event at the placement.
    The comparison is with that event's [end_time], as in the source; the
    message is formatted with its [start_time]. *)
Definition next_check (sorted_events : list Event)
  (new_event_placement : nat) (name : string) (end_t : Z)
  : option ValueError :=
  if (new_event_placement <? length sorted_events)%nat then
    match nth_error sorted_events new_event_placement with
    | Some next =>
        if end_t >? end_time next
        then Some (EndsAfterStarts name end_t
                     (event_name next) (start_time next))
        else None
    | None => None
    end
  else None.

(** Lines 75-84 of [add_event]: the placement of the new event among the
    user's events, then the two neighbour checks in order.  [None] when
    neither raises. *)
Definition placement_checks (sorted_events : list Event)
  (name : string) (start_t end_t : Z) : option ValueError :=
  let new_event_placement :=
    bisect_left (map end_time sorted_events) end_t in
  match previous_check sorted_events new_event_placement name start_t with
  | Some err => Some err
  | None => next_check sorted_events new_event_placement name end_t
  end.

(** [Database.add_event].  Every [raise] comes before the first [INSERT],
    so a call that raises leaves the tables as they were. *)
Definition add_event (db : Database) (name ev_name : string)
  (start_t end_t : Z) (days : list (string * bool))
  : result unit * Database :=
  if negb (username_in name db) then (Raise (UsernameDoesNotExist name), db)
  else if end_t <? start_t then (Raise (StartAfterEnd start_t end_t), db)
  else
    match get_sorted_events db name with
    | Raise e => (Raise e, db)
    | Ok sorted_events =>
        match placement_checks sorted_events ev_name start_t end_t with
        | Some err => (Raise err, db)
        | None =>
            match get_id db name with
            | Raise e => (Raise e, db)
            | Ok uid =>
                let rowid := next_rowid (events db) in
                (Ok tt,
                 mkDatabase (users db)
                   (events db ++ [mkEventRow rowid uid ev_name start_t end_t])
                   (recurring db ++
                      [mkRecurringRow rowid
                         (days_get days "mon") (days_get days "tue")
                         (days_get days "wed") (days_get days "thur")
                         (days_get days "fri") (days_get days "sat")
                         (days_get days "sun")]))
            end
        end
    end.

(** Adding a run of events to one user's calendar, keeping the store after
    each call (a call that raises leaves it unchanged). *)
Fixpoint add_events (db : Database) (name : string)
  (candidates : list (string * Z * Z)) : Database :=
  match candidates with
  | [] => db
  | (ev_name, start_t, end_t) :: rest =>
      add_events (snd (add_event db name ev_name start_t end_t [])) name rest
  end.

(** ** The free-time sweep *)

(** What the [while] loop of [get_inverse_schedule] updates. *)
Record SweepState : Type := mkSweep {
  events_list : list (list Event);
  pointer : Z;
  overlapping_times : list Event
}.

(** [Event('', 'Free Time', s, e, False, ..., False)]. *)
Definition free_time (s e : Z) : Event :=
  mkEvent "" "Free Time" s e false false false false false false false.

(** Line 144: the slice from the first event with [end_time > pointer];
    the empty list when there is none ([StopIteration], line 149). *)
Fixpoint drop_finished (ptr : Z) (evs : list Event) : list Event :=
  match evs with
  | [] => []
  | e :: rest => if end_time e >? ptr then evs else drop_finished ptr rest
  end.

(** The [for] loop of lines 141-149 over the calendars from some index
    on: each calendar is replaced by its slice; at the first calendar
    whose front event has [start_time <= pointer] the loop breaks with
    that event's [end_time] as the new pointer ([Some]), and the calendars
    after it are left as they were.  [None] when the loop runs to its
    [else] clause. *)
Fixpoint scan_calendars (ptr : Z) (cals : list (list Event))
  : list (list Event) * option Z :=
  match cals with
  | [] => ([], None)
  | evs :: rest =>
      match drop_finished ptr evs with
      | e :: evs' =>
          if start_time e <=? ptr
          then ((e :: evs') :: rest, Some (end_time e))
          else let (rest', brk) := scan_calendars ptr rest in
               ((e :: evs') :: rest', brk)
      | [] =>
          let (rest', brk) := scan_calendars ptr rest in
          ([] :: rest', brk)
      end
  end.

(** [(events[0].start_time for events in events_list if events)]. *)
Definition front_starts (cals : list (list Event)) : list Z :=
  flat_map (fun evs => match evs with
                       | [] => []
                       | e :: _ => [start_time e]
                       end) cals.

(** [min] of a sequence of integers; [None] is the [ValueError] that
    [min] raises on an empty one. *)
Fixpoint min_of (l : list Z) : option Z :=
  match l with
  | [] => None
  | x :: rest =>
      match min_of rest with
      | None => Some x
      | Some m => Some (Z.min x m)
      end
  end.

(** One pass through the body of the [while] loop. *)
Inductive Pass : Type :=
| Continue (st : SweepState)     (* back to the loop test *)
| Break (out : list Event).      (* the [break] of line 159 *)

Definition sweep_pass (end_t : Z) (st : SweepState) : Pass :=
  match scan_calendars (pointer st) (events_list st) with
  | (cals, Some new_pointer) =>
      Continue (mkSweep cals new_pointer (overlapping_times st))
  | (cals, None) =>
      match min_of (front_starts cals) with
      | Some next_end_time =>
          Continue (mkSweep cals next_end_time
                      (overlapping_times st ++
                         [free_time (pointer st) (Z.min next_end_time end_t)]))
      | None =>
          if negb (pointer st =? end_t)
          then Break (overlapping_times st ++ [free_time (pointer st) end_t])
          else Break (overlapping_times st)
      end
  end.

(** The [while pointer < end_time] loop, run for at most [fuel] passes;
    [None] when the passes run out before the loop ends. *)
Fixpoint sweep_loop (fuel : nat) (end_t : Z) (st : SweepState)
  : option (list Event) :=
  match fuel with
  | O => None
  | S fuel' =>
      if pointer st <? end_t then
        match sweep_pass end_t st with
        | Continue st' => sweep_loop fuel' end_t st'
        | Break out => Some out
        end
      else Some (overlapping_times st)
  end.

(** How many of an event's two bounds lie after the pointer, summed over
    all the events the sweep still holds: a bound on the passes left. *)
Definition bounds_ahead (ptr : Z) (e : Event) : nat :=
  Nat.add (if ptr <? start_time e then 1%nat else 0%nat)
          (if ptr <? end_time e then 1%nat else 0%nat).

Definition calendar_weight (ptr : Z) (evs : list Event) : nat :=
  list_sum (map (bounds_ahead ptr) evs).

Definition sweep_weight (ptr : Z) (cals : list (list Event)) : nat :=
  list_sum (map (calendar_weight ptr) cals).

(** The loop of [get_inverse_schedule] on the calendars already fetched,
    with passes enough for any input (lemma [sweep_returns]). *)
Definition sweep (cals : list (list Event)) (start_t end_t : Z)
  : option (list Event) :=
  sweep_loop (S (sweep_weight start_t cals)) end_t (mkSweep cals start_t []).

(** [[self.get_sorted_events(friend) for friend in friends]]. *)
Fixpoint fetch_calendars (db : Database) (friends : list string)
  : result (list (list Event)) :=
  match friends with
  | [] => Ok []
  | friend :: rest =>
      match get_sorted_events db friend with
      | Raise e => Raise e
      | Ok evs =>
          match fetch_calendars db rest with
          | Raise e => Raise e
          | Ok cals => Ok (evs :: cals)
          end
      end
  end.

(** [Database.get_inverse_schedule]. *)
Definition get_inverse_schedule (db : Database) (friends : list string)
  (start_t end_t : Z) : result (option (list Event)) :=
  match fetch_calendars db friends with
  | Raise e => Raise e
  | Ok cals => Ok (sweep cals start_t end_t)
  end.

(** ** Predicates of the specification *)

(** Section 4.1: [[s1,e1)] and [[s2,e2)] overlap iff [s1 < e2] and
    [s2 < e1]. *)
Definition overlaps (a b : Event) : Prop :=
  start_time a < end_time b /\ start_time b < end_time a.

Definition overlapsb (a b : Event) : bool :=
  (start_time a <? end_time b) && (start_time b <? end_time a).

(** A calendar in ascending order of [end_time]. *)
Definition end_sorted (evs : list Event) : Prop :=
  StronglySorted (fun a b => end_time a <= end_time b) evs.

(** A calendar in ascending order of [start_time]. *)
Definition start_sorted (evs : list Event) : Prop :=
  StronglySorted (fun a b => start_time a <= start_time b) evs.


(** Every event of the calendar has positive length. *)
Definition positive_length (evs : list Event) : Prop :=
  Forall (fun e => start_time e < end_time e) evs.

(** Time [t] lies in the half-open interval of [e]. *)
Definition covers (e : Event) (t : Z) : Prop :=
  start_time e <= t < end_time e.

(** Some user is busy at [t]: an event of some calendar covers [t]. *)
Definition busy_at (cals : list (list Event)) (t : Z) : Prop :=
  exists evs e, In evs cals /\ In e evs /\ covers e t.

(** Some emitted window covers [t]. *)
Definition in_windows (out : list Event) (t : Z) : Prop :=
  exists w, In w out /\ covers w t.

(** Windows in time order: each ends no later than every later one
    starts. *)
Definition windows_ordered (out : list Event) : Prop :=
  StronglySorted (fun a b => end_time a <= start_time b) out.

(** [w1] then [w2] are consecutive entries of [out]. *)
Definition consecutive (out : list Event) (w1 w2 : Event) : Prop :=
  exists before after, out = before ++ w1 :: w2 :: after.

(** Section 4.3, step 2, in the specification's words: the minimum of
    [end] over all calendars whose front event, after dropping the events
    with [end <= pointer], is busy at [pointer]. *)
Definition spec_busy_ends (ptr : Z) (cals : list (list Event)) : list Z :=
  flat_map (fun evs => match drop_finished ptr evs with
                       | e :: _ =>
                           if start_time e <=? ptr then [end_time e] else []
                       | [] => []
                       end) cals.

Definition spec_min_busy_end (ptr : Z) (cals : list (list Event)) : option Z :=
  min_of (spec_busy_ends ptr cals).

(** ** Sample stores and calendars *)

(** A store with the single user [cj]. *)
Definition cj_db : Database := snd (add_user empty_db "cj" "pw").

(** [cj] with the event [A = [5,10)]. *)
Definition cj_db_A : Database := snd (add_event cj_db "cj" "A" 5 10 []).

(** [cj] with the events [A = [0,10)] and [B = [15,20)]. *)
Definition cj_db_AB : Database :=
  add_events cj_db "cj" [("A"%string, 0, 10); ("B"%string, 15, 20)].

(** [cj] with the zero-length event [Z = [5,5)]. *)
Definition cj_db_Z : Database := snd (add_event cj_db "cj" "Z" 5 5 []).

(** An event of [cj] as [get_sorted_events] returns it. *)
Definition cj_event (ev_name : string) (s e : Z) : Event :=
  mkEvent "cj" ev_name s e false false false false false false false.

(** An event of the user [stef]. *)
Definition stef_event (ev_name : string) (s e : Z) : Event :=
  mkEvent "stef" ev_name s e false false false false false false false.

(** Two users busy from 0, [cj] until 10 and [stef] until 5, with the
    sweep at its start. *)
Definition both_busy : SweepState :=
  mkSweep [[cj_event "A" 0 10]; [stef_event "B" 0 5]] 0 [].



(** ** Facts about [bisect_left] *)

Section Bisect.
Variable a : list Z.
Variable x : Z.

(** One unfolding of the loop. *)
Lemma bisect_loop_step (lo hi : nat) :
  bisect_loop a x lo hi =
  if lt_dec lo hi then
    if nth ((lo + hi) / 2)%nat a 0 <? x
    then bisect_loop a x (S ((lo + hi) / 2)%nat) hi
    else bisect_loop a x lo ((lo + hi) / 2)%nat
  else lo.
Proof.
  rewrite bisect_loop_equation_1.
  destruct (lt_dec lo hi); reflexivity.
Qed.

Lemma midpoint_between (lo hi : nat) :
  (lo < hi)%nat -> (lo <= (lo + hi) / 2 < hi)%nat.
Proof.
  intros H; split.
  - apply Nat.div_le_lower_bound; lia.
  - apply Nat.Div0.div_lt_upper_bound; lia.
Qed.

(** On any list, the loop stops at [hi] or at an index whose element is
    not below [x]: [hi] only ever moves to such an index. *)
Lemma bisect_loop_stops (n : nat) :
  forall lo hi : nat,
    (hi - lo <= n)%nat -> (lo <= hi)%nat ->
    ((hi < length a)%nat -> x <= nth hi a 0) ->
    (lo <= bisect_loop a x lo hi <= hi)%nat /\
    ((bisect_loop a x lo hi < length a)%nat ->
     x <= nth (bisect_loop a x lo hi) a 0).
Proof.
  induction n as [|n IH]; intros lo hi Hn Hle Hhi;
    rewrite bisect_loop_step; destruct (lt_dec lo hi) as [Hlt|Hge];
    try lia.
  - assert (lo = hi) by lia; subst; split; [lia | exact Hhi].
  - pose proof (midpoint_between lo hi Hlt) as Hmid.
    destruct (nth ((lo + hi) / 2)%nat a 0 <? x) eqn:Hcmp.
    + destruct (IH (S ((lo + hi) / 2)%nat) hi) as [Hb Hx];
        [lia | lia | exact Hhi |].
      split; [lia | exact Hx].
    + apply Z.ltb_ge in Hcmp.
      destruct (IH lo ((lo + hi) / 2)%nat) as [Hb Hx];
        [lia | lia | intros _; exact Hcmp |].
      split; [lia | exact Hx].
  - assert (lo = hi) by lia; subst; split; [lia | exact Hhi].
Qed.

(** On a list in ascending order the loop keeps every element below
    [x] to the left of [lo] and every other one from [hi] on. *)
Hypothesis a_sorted :
  forall i j : nat, (i <= j < length a)%nat -> nth i a 0 <= nth j a 0.

Lemma bisect_loop_splits (n : nat) :
  forall lo hi : nat,
    (hi - lo <= n)%nat -> (lo <= hi <= length a)%nat ->
    (forall i, (i < lo)%nat -> nth i a 0 < x) ->
    (forall i, (hi <= i < length a)%nat -> x <= nth i a 0) ->
    (forall i, (i < bisect_loop a x lo hi)%nat -> nth i a 0 < x) /\
    (forall i, (bisect_loop a x lo hi <= i < length a)%nat ->
               x <= nth i a 0).
Proof.
  induction n as [|n IH]; intros lo hi Hn Hle Hlo Hhi;
    rewrite bisect_loop_step; destruct (lt_dec lo hi) as [Hlt|Hge];
    try lia.
  - assert (lo = hi) by lia; subst; split; assumption.
  - pose proof (midpoint_between lo hi Hlt) as Hmid.
    destruct (nth ((lo + hi) / 2)%nat a 0 <? x) eqn:Hcmp.
    + apply Z.ltb_lt in Hcmp.
      apply IH; [lia | lia | | exact Hhi].
      intros i Hi.
      assert (nth i a 0 <= nth ((lo + hi) / 2)%nat a 0)
        by (apply a_sorted; lia).
      lia.
    + apply Z.ltb_ge in Hcmp.
      apply IH; [lia | lia | exact Hlo |].
      intros i Hi.
      assert (nth ((lo + hi) / 2)%nat a 0 <= nth i a 0)
        by (apply a_sorted; lia).
      lia.
  - assert (lo = hi) by lia; subst; split; assumption.
Qed.
End Bisect.

Lemma bisect_left_le_length (a : list Z) (x : Z) :
  (bisect_left a x <= length a)%nat.
Proof.
  unfold bisect_left.
  destruct (bisect_loop_stops a x (length a) 0%nat (length a)) as [H _];
    [lia | lia | lia |].
  lia.
Qed.

(** Whatever the list, the element at the insertion point is not below
    [x]. *)
Lemma bisect_left_not_below (a : list Z) (x : Z) :
  (bisect_left a x < length a)%nat -> x <= nth (bisect_left a x) a 0.
Proof.
  unfold bisect_left.
  destruct (bisect_loop_stops a x (length a) 0%nat (length a)) as [_ H];
    [lia | lia | lia |].
  exact H.
Qed.

Lemma bisect_left_splits (a : list Z) (x : Z) :
  (forall i j : nat, (i <= j < length a)%nat -> nth i a 0 <= nth j a 0) ->
  (forall i, (i < bisect_left a x)%nat -> nth i a 0 < x) /\
  (forall i, (bisect_left a x <= i < length a)%nat -> x <= nth i a 0).
Proof.
  intros Hs. unfold bisect_left.
  apply (bisect_loop_splits a x Hs (length a)); intros; lia.
Qed.

(** ** Facts about the calendars read from the store *)

Lemma nth_end_time (evs : list Event) (i : nat) (e : Event) :
  nth_error evs i = Some e -> nth i (map end_time evs) 0 = end_time e.
Proof.
  revert i; induction evs as [|x evs IH]; intros [|i] H; simpl in *;
    try discriminate.
  - now inversion H.
  - now apply IH.
Qed.

Lemma end_sorted_nth (evs : list Event) :
  end_sorted evs ->
  forall i j : nat, (i <= j < length (map end_time evs))%nat ->
    nth i (map end_time evs) 0 <= nth j (map end_time evs) 0.
Proof.
  unfold end_sorted.
  induction 1 as [|x evs Hs IH Hx]; intros i j Hij; simpl in *; [lia|].
  destruct i as [|i], j as [|j]; try lia.
  - rewrite Forall_forall in Hx.
    destruct (nth_error evs j) as [e|] eqn:He.
    + rewrite (nth_end_time _ _ _ He). apply Hx.
      eapply nth_error_In; eauto.
    + apply nth_error_None in He. rewrite length_map in Hij. lia.
  - apply IH. lia.
Qed.

Lemma insert_by_end_In (e x : Event) (l : list Event) :
  In x (insert_by_end e l) -> x = e \/ In x l.
Proof.
  induction l as [|y l IH]; simpl.
  - intros [H|[]]; auto.
  - destruct (end_time e <=? end_time y); simpl; intuition.
Qed.

Lemma insert_by_end_sorted (e : Event) (l : list Event) :
  end_sorted l -> end_sorted (insert_by_end e l).
Proof.
  unfold end_sorted.
  induction 1 as [|y l Hs IH Hy]; simpl.
  - repeat constructor.
  - destruct (end_time e <=? end_time y) eqn:Hc.
    + apply Z.leb_le in Hc.
      constructor; [constructor; assumption|].
      constructor; [assumption|].
      rewrite Forall_forall in *; intros z Hz.
      specialize (Hy z Hz); lia.
    + apply Z.leb_gt in Hc.
      constructor; [assumption|].
      rewrite Forall_forall in *; intros z Hz.
      destruct (insert_by_end_In _ _ _ Hz) as [->|Hz']; [lia | auto].
Qed.

Lemma order_by_end_sorted (l : list Event) : end_sorted (order_by_end l).
Proof.
  induction l as [|e l IH]; simpl.
  - constructor.
  - now apply insert_by_end_sorted.
Qed.

(** [get_sorted_events] returns its rows in ascending order of
    [end_time]. *)
Lemma get_sorted_events_sorted (db : Database) (name : string)
  (evs : list Event) :
  get_sorted_events db name = Ok evs -> end_sorted evs.
Proof.
  unfold get_sorted_events.
  destruct (negb (username_in name db)); [discriminate|].
  intros H; inversion H; apply order_by_end_sorted.
Qed.

(** ** The neighbour checks of [add_event] *)

(** The guard of line 80 never holds at the position [bisect_left]
    returns. *)
Lemma next_check_silent (evs : list Event) (name : string) (end_t : Z) :
  next_check evs (bisect_left (map end_time evs) end_t) name end_t = None.
Proof.
  unfold next_check.
  destruct (_ <? _)%nat eqn:Hlt; [|reflexivity].
  apply Nat.ltb_lt in Hlt.
  destruct (nth_error evs _) as [next|] eqn:Hn; [|reflexivity].
  pose proof (bisect_left_not_below (map end_time evs) end_t) as Hb.
  rewrite length_map in Hb. specialize (Hb Hlt).
  rewrite (nth_end_time _ _ _ Hn) in Hb.
  destruct (end_t >? end_time next) eqn:Hc; [|reflexivity].
  apply Z.gtb_lt in Hc. lia.
Qed.

Lemma placement_checks_previous (evs : list Event) (name : string)
  (start_t end_t : Z) :
  placement_checks evs name start_t end_t =
  previous_check evs (bisect_left (map end_time evs) end_t) name start_t.
Proof.
  unfold placement_checks.
  destruct (previous_check _ _ _ _); [reflexivity|].
  apply next_check_silent.
Qed.

(** What [add_event] does once the user is known and the range is in
    order. *)
Lemma add_event_checked (db : Database) (name ev_name : string)
  (start_t end_t : Z) (days : list (string * bool)) (evs : list Event) :
  username_in name db = true -> start_t <= end_t ->
  get_sorted_events db name = Ok evs ->
  add_event db name ev_name start_t end_t days =
  match placement_checks evs ev_name start_t end_t with
  | Some err => (Raise err, db)
  | None =>
      match get_id db name with
      | Raise e => (Raise e, db)
      | Ok uid =>
          (Ok tt,
           mkDatabase (users db)
             (events db ++
                [mkEventRow (next_rowid (events db)) uid ev_name start_t end_t])
             (recurring db ++
                [mkRecurringRow (next_rowid (events db))
                   (days_get days "mon") (days_get days "tue")
                   (days_get days "wed") (days_get days "thur")
                   (days_get days "fri") (days_get days "sat")
                   (days_get days "sun")]))
      end
  end.
Proof.
  intros Hu Hr Hs. unfold add_event.
  rewrite Hu; simpl.
  destruct (end_t <? start_t) eqn:Hc; [apply Z.ltb_lt in Hc; lia|].
  rewrite Hs. reflexivity.
Qed.

(** The only error the two checks can give is the one of line 77, for the
    event just before the placement. *)
Lemma placement_checks_error (evs : list Event) (name : string)
  (start_t end_t : Z) (err : ValueError) :
  placement_checks evs name start_t end_t = Some err ->
  exists prev,
    (0 < bisect_left (map end_time evs) end_t)%nat /\
    nth_error evs (bisect_left (map end_time evs) end_t - 1) = Some prev /\
    start_t < end_time prev /\
    err = StartsBeforeEnds name start_t (event_name prev) (end_time prev).
Proof.
  rewrite placement_checks_previous. unfold previous_check.
  destruct (0 <? _)%nat eqn:Hp; [|discriminate].
  apply Nat.ltb_lt in Hp.
  destruct (nth_error evs _) as [prev|] eqn:Hn; [|discriminate].
  destruct (start_t <? end_time prev) eqn:Hc; [|discriminate].
  apply Z.ltb_lt in Hc.
  intros H; inversion H; subst. exists prev; auto.
Qed.

(** Every way [add_event] can end. *)
Lemma add_event_outcomes (db : Database) (name ev_name : string)
  (start_t end_t : Z) (days : list (string * bool)) :
  fst (add_event db name ev_name start_t end_t days) = Ok tt \/
  fst (add_event db name ev_name start_t end_t days) =
    Raise (UsernameDoesNotExist name) \/
  (end_t < start_t /\
   fst (add_event db name ev_name start_t end_t days) =
     Raise (StartAfterEnd start_t end_t)) \/
  (exists prev,
     fst (add_event db name ev_name start_t end_t days) =
       Raise (StartsBeforeEnds ev_name start_t
                (event_name prev) (end_time prev))) \/
  fst (add_event db name ev_name start_t end_t days) =
    Raise (UserDoesNotExist name).
Proof.
  unfold add_event, get_sorted_events.
  destruct (negb (username_in name db)); simpl; [auto|].
  destruct (end_t <? start_t) eqn:Hc; simpl.
  { apply Z.ltb_lt in Hc; auto. }
  destruct (placement_checks _ _ _ _) as [err|] eqn:Hp; simpl.
  - apply placement_checks_error in Hp as (prev & _ & _ & _ & ->).
    right; right; right; left. now exists prev.
  - destruct (get_id db name) as [uid|e] eqn:Hg; simpl; auto.
    unfold get_id in Hg.
    destruct (find _ (users db)); inversion Hg; auto 6.
Qed.

(** ** Properties of [add_event] *)

(** C5: on the calendar [get_sorted_events] returns (in ascending order of
    end), [add_event] places a candidate with [start <= end] at the
    position [p] of [bisect_left]: every event before [p] ends strictly
    before the candidate's end and every event from [p] on ends at or
    after it.  If [p > 0] and the candidate starts before [existing[p-1]]
    ends, the call raises the error of line 77 naming [existing[p-1]] and
    its end, and the store is unchanged; if [p = 0] or the candidate
    starts at or after that end, that error is not raised. *)
Theorem add_event_previous_neighbour (db : Database) (name ev_name : string)
  (start_t end_t : Z) (days : list (string * bool)) (existing : list Event) :
  username_in name db = true ->
  start_t <= end_t ->
  get_sorted_events db name = Ok existing ->
  let p := bisect_left (map end_time existing) end_t in
  (p <= length existing)%nat /\
  (forall i e, (i < p)%nat -> nth_error existing i = Some e ->
               end_time e < end_t) /\
  (forall i e, (p <= i)%nat -> nth_error existing i = Some e ->
               end_t <= end_time e) /\
  (forall prev, (0 < p)%nat -> nth_error existing (p - 1) = Some prev ->
     start_t < end_time prev ->
     add_event db name ev_name start_t end_t days =
     (Raise (StartsBeforeEnds ev_name start_t
               (event_name prev) (end_time prev)), db)) /\
  ((p = 0%nat \/
    exists prev, nth_error existing (p - 1) = Some prev /\
                 end_time prev <= start_t) ->
   forall ev s prev_name prev_end,
     fst (add_event db name ev_name start_t end_t days) <>
     Raise (StartsBeforeEnds ev s prev_name prev_end)).
Proof.
  intros Hu Hr Hs p.
  pose proof (get_sorted_events_sorted _ _ _ Hs) as Hsorted.
  pose proof (bisect_left_splits (map end_time existing) end_t
                (end_sorted_nth _ Hsorted)) as [Hbefore Hafter].
  fold p in Hbefore, Hafter.
  split; [|split; [|split; [|split]]].
  - pose proof (bisect_left_le_length (map end_time existing) end_t) as H.
    rewrite length_map in H. exact H.
  - intros i e Hi He. rewrite <- (nth_end_time _ _ _ He). now apply Hbefore.
  - intros i e Hi He. rewrite <- (nth_end_time _ _ _ He). apply Hafter.
    split; [exact Hi|]. rewrite length_map.
    apply nth_error_Some. congruence.
  - intros prev Hp Hprev Hlt.
    rewrite (add_event_checked _ _ _ _ _ _ _ Hu Hr Hs).
    rewrite placement_checks_previous. fold p. unfold previous_check.
    apply Nat.ltb_lt in Hp. rewrite Hp, Hprev.
    apply Z.ltb_lt in Hlt. rewrite Hlt. reflexivity.
  - intros Hpass ev s prev_name prev_end.
    rewrite (add_event_checked _ _ _ _ _ _ _ Hu Hr Hs).
    destruct (placement_checks existing ev_name start_t end_t) as [err|] eqn:Hc.
    + apply placement_checks_error in Hc as (prev & Hp & Hn & Hlt & _).
      fold p in Hp, Hn.
      destruct Hpass as [H0 | (prev' & Hn' & Hge)]; [lia|].
      rewrite Hn in Hn'. inversion Hn'; subst. lia.
    + destruct (get_id db name) as [uid|e] eqn:Hg; simpl; [discriminate|].
      unfold get_id in Hg.
      destruct (find _ (users db)); inversion Hg; discriminate.
Qed.

Lemma add_event_previous_neighbour_witness :
  username_in "cj" cj_db_AB = true /\
  9 <= 16 /\
  get_sorted_events cj_db_AB "cj" =
    Ok [cj_event "A" 0 10; cj_event "B" 15 20] /\
  add_event cj_db_AB "cj" "C" 9 16 [] =
    (Raise (StartsBeforeEnds "C" 9 "A" 10), cj_db_AB).
Proof.
  split; [reflexivity|]. split; [lia|]. split; [reflexivity|].
  refine (proj1 (proj2 (proj2 (proj2
    (add_event_previous_neighbour cj_db_AB "cj" "C" 9 16 []
       [cj_event "A" 0 10; cj_event "B" 15 20] _ _ _))))
    (cj_event "A" 0 10) _ _ _).
  - reflexivity.
  - lia.
  - reflexivity.
  - vm_compute. lia.
  - reflexivity.
  - simpl. lia.
Defined.

(** C6: for a user of the store, a candidate with [end < start] makes
    [add_event] raise the error of line 72 and leaves the store as it was
    (no row is added to [events] or [recurring]); a candidate with
    [start <= end] never gets that error. *)
Theorem add_event_invalid_range (db : Database) (name ev_name : string)
  (start_t end_t : Z) (days : list (string * bool)) :
  username_in name db = true ->
  (end_t < start_t ->
   add_event db name ev_name start_t end_t days =
   (Raise (StartAfterEnd start_t end_t), db)) /\
  (start_t <= end_t ->
   forall s e,
     fst (add_event db name ev_name start_t end_t days) <>
     Raise (StartAfterEnd s e)).
Proof.
  intros Hu; split.
  - intros Hlt. unfold add_event. rewrite Hu; simpl.
    apply Z.ltb_lt in Hlt. now rewrite Hlt.
  - intros Hle s e.
    destruct (add_event_outcomes db name ev_name start_t end_t days)
      as [H | [H | [[Hlt H] | [[prev H] | H]]]];
      rewrite H; try discriminate.
    lia.
Qed.

Lemma add_event_invalid_range_witness :
  username_in "cj" cj_db_A = true /\
  3 < 5 /\
  add_event cj_db_A "cj" "B" 5 3 [] = (Raise (StartAfterEnd 5 3), cj_db_A).
Proof.
  split; [reflexivity|]. split; [lia|].
  apply (proj1 (add_event_invalid_range cj_db_A "cj" "B" 5 3 []
                  eq_refl)).
  lia.
Defined.

(** C9: the branch of line 80 cannot be taken.  For every list of events
    and every candidate end, the event at the position of [bisect_left]
    (when there is one) ends at or after the candidate's end, so the check
    of line 80 gives no error, and no call of [add_event] raises the
    error of line 81. *)
Theorem next_neighbour_branch_unreachable (db : Database)
  (name ev_name : string) (start_t end_t : Z) (days : list (string * bool))
  (sorted_events : list Event) :
  match nth_error sorted_events
          (bisect_left (map end_time sorted_events) end_t) with
  | Some next => end_t <= end_time next
  | None => True
  end /\
  next_check sorted_events (bisect_left (map end_time sorted_events) end_t)
    ev_name end_t = None /\
  forall ev e next_name next_start,
    fst (add_event db name ev_name start_t end_t days) <>
    Raise (EndsAfterStarts ev e next_name next_start).
Proof.
  split; [|split].
  - destruct (nth_error sorted_events _) as [next|] eqn:Hn; [|exact I].
    rewrite <- (nth_end_time _ _ _ Hn).
    apply bisect_left_not_below.
    rewrite length_map. apply nth_error_Some. congruence.
  - apply next_check_silent.
  - intros ev e next_name next_start.
    destruct (add_event_outcomes db name ev_name start_t end_t days)
      as [H | [H | [[Hlt H] | [[prev H] | H]]]];
      rewrite H; discriminate.
Qed.

(** C1 (the code differs): with [A = [5,10)] in the calendar, the
    candidate [[0,7)] is placed at [p = 0], passes the previous-neighbour
    check, and ends after [existing[0]] has started ([7 > 5]); [add_event]
    still returns normally and stores the candidate. *)
Theorem add_event_misses_next_overlap :
  get_sorted_events cj_db_A "cj" = Ok [cj_event "A" 5 10] /\
  bisect_left (map end_time [cj_event "A" 5 10]) 7 = 0%nat /\
  previous_check [cj_event "A" 5 10] 0 "B" 0 = None /\
  7 > start_time (cj_event "A" 5 10) /\
  fst (add_event cj_db_A "cj" "B" 0 7 []) = Ok tt /\
  get_sorted_events (snd (add_event cj_db_A "cj" "B" 0 7 [])) "cj" =
    Ok [cj_event "B" 0 7; cj_event "A" 5 10].
Proof.
  repeat split; try reflexivity.
Qed.

(** C2 (the code differs): starting from a store with no event, the calls
    [add_event(cj, A, 5, 10)] and [add_event(cj, B, 0, 7)] are both
    accepted, and the resulting calendar holds two overlapping events. *)
Theorem accepted_events_can_overlap :
  events cj_db = [] /\
  fst (add_event cj_db "cj" "A" 5 10 []) = Ok tt /\
  fst (add_event (snd (add_event cj_db "cj" "A" 5 10 [])) "cj" "B" 0 7 [])
    = Ok tt /\
  get_sorted_events
    (add_events cj_db "cj" [("A"%string, 5, 10); ("B"%string, 0, 7)]) "cj" =
    Ok [cj_event "B" 0 7; cj_event "A" 5 10] /\
  overlaps (cj_event "B" 0 7) (cj_event "A" 5 10).
Proof.
  repeat split; try reflexivity; simpl; lia.
Qed.

(** ** Facts about one pass of the sweep *)

(** [evs'] is [evs] without some leading events that end at or before
    [ptr]. *)
Definition trimmed (ptr : Z) (evs evs' : list Event) : Prop :=
  exists dropped,
    evs = dropped ++ evs' /\ Forall (fun e => end_time e <= ptr) dropped.

(** The front event of the calendar, once the finished events are
    dropped, starts after [ptr]. *)
Definition front_free (ptr : Z) (evs : list Event) : Prop :=
  match drop_finished ptr evs with
  | [] => True
  | e :: _ => ptr < start_time e
  end.

Lemma trimmed_refl (ptr : Z) (evs : list Event) : trimmed ptr evs evs.
Proof. exists []; split; [reflexivity | constructor]. Qed.

Lemma trimmed_later (ptr ptr' : Z) (evs evs' : list Event) :
  ptr <= ptr' -> trimmed ptr evs evs' -> trimmed ptr' evs evs'.
Proof.
  intros Hle (dropped & -> & Hd). exists dropped; split; [reflexivity|].
  eapply Forall_impl; [|exact Hd]. simpl; intros; lia.
Qed.

Lemma trimmed_trans (ptr : Z) (a b c : list Event) :
  trimmed ptr a b -> trimmed ptr b c -> trimmed ptr a c.
Proof.
  intros (d1 & -> & H1) (d2 & -> & H2). exists (d1 ++ d2); split.
  - now rewrite app_assoc.
  - apply Forall_app; auto.
Qed.

Lemma drop_finished_trimmed (ptr : Z) (evs : list Event) :
  trimmed ptr evs (drop_finished ptr evs).
Proof.
  induction evs as [|e evs IH]; simpl.
  - apply trimmed_refl.
  - destruct (end_time e >? ptr) eqn:Hc.
    + apply trimmed_refl.
    + destruct IH as (d & Heq & Hd). exists (e :: d); split.
      * simpl. now rewrite <- Heq.
      * constructor; [|exact Hd].
        rewrite Z.gtb_ltb in Hc. apply Z.ltb_ge in Hc. exact Hc.
Qed.

Lemma drop_finished_front (ptr : Z) (evs : list Event) (e : Event)
  (rest : list Event) :
  drop_finished ptr evs = e :: rest -> ptr < end_time e.
Proof.
  induction evs as [|x evs IH]; simpl; [discriminate|].
  destruct (end_time x >? ptr) eqn:Hc.
  - intros H; inversion H; subst.
    rewrite Z.gtb_ltb in Hc. now apply Z.ltb_lt in Hc.
  - exact IH.
Qed.

(** A calendar whose front event is still running is left as it is. *)
Lemma drop_finished_keeps (ptr : Z) (e : Event) (rest : list Event) :
  ptr < end_time e -> drop_finished ptr (e :: rest) = e :: rest.
Proof.
  intros H; simpl.
  destruct (end_time e >? ptr) eqn:Hc; [reflexivity|].
  rewrite Z.gtb_ltb in Hc. apply Z.ltb_ge in Hc. lia.
Qed.

(** The [for] loop finds the first calendar that is busy at [ptr]. *)
Lemma scan_calendars_busy (ptr : Z) (before : list (list Event))
  (evs : list Event) (after : list (list Event)) (e : Event)
  (rest : list Event) :
  Forall (front_free ptr) before ->
  drop_finished ptr evs = e :: rest ->
  start_time e <= ptr ->
  scan_calendars ptr (before ++ evs :: after) =
  (map (drop_finished ptr) before ++ (e :: rest) :: after,
   Some (end_time e)).
Proof.
  intros Hfree Hd Hs.
  induction Hfree as [|c before Hc Hfree IH]; simpl.
  - rewrite Hd. apply Z.leb_le in Hs. now rewrite Hs.
  - unfold front_free in Hc.
    destruct (drop_finished ptr c) as [|x c'].
    + now rewrite IH.
    + destruct (start_time x <=? ptr) eqn:Hx;
        [apply Z.leb_le in Hx; lia|].
      now rewrite IH.
Qed.

(** With no calendar busy at [ptr] the loop runs to its [else]. *)
Lemma scan_calendars_free (ptr : Z) (cals : list (list Event)) :
  Forall (front_free ptr) cals ->
  scan_calendars ptr cals = (map (drop_finished ptr) cals, None).
Proof.
  induction 1 as [|c cals Hc Hfree IH]; simpl; [reflexivity|].
  unfold front_free in Hc.
  destruct (drop_finished ptr c) as [|x c'].
  - now rewrite IH.
  - destruct (start_time x <=? ptr) eqn:Hx;
      [apply Z.leb_le in Hx; lia|].
    now rewrite IH.
Qed.

(** Either no calendar is busy at [ptr], or there is a first one. *)
Lemma first_busy_calendar (ptr : Z) (cals : list (list Event)) :
  Forall (front_free ptr) cals \/
  exists before evs after e rest,
    cals = before ++ evs :: after /\
    Forall (front_free ptr) before /\
    drop_finished ptr evs = e :: rest /\
    start_time e <= ptr.
Proof.
  induction cals as [|c cals IH].
  - left; constructor.
  - destruct (drop_finished ptr c) as [|x c'] eqn:Hd.
    + destruct IH as [Hall | (before & evs & after & e & rest & -> & Hf & He & Hs)].
      * left; constructor; [|exact Hall]. unfold front_free; now rewrite Hd.
      * right. exists (c :: before), evs, after, e, rest.
        repeat split; auto.
        constructor; [|exact Hf]. unfold front_free; now rewrite Hd.
    + destruct (Z_le_gt_dec (start_time x) ptr) as [Hle|Hgt].
      * right. exists [], c, cals, x, c'. repeat split; auto.
      * destruct IH as [Hall | (before & evs & after & e & rest & -> & Hf & He & Hs)].
        -- left; constructor; [|exact Hall].
           unfold front_free; rewrite Hd; lia.
        -- right. exists (c :: before), evs, after, e, rest.
           repeat split; auto.
           constructor; [|exact Hf]. unfold front_free; rewrite Hd; lia.
Qed.

(** [min] returns an element of the sequence, below all the others. *)
Lemma min_of_spec (l : list Z) (m : Z) :
  min_of l = Some m -> In m l /\ Forall (fun x => m <= x) l.
Proof.
  revert m; induction l as [|x l IH]; simpl; [discriminate|].
  intros m. destruct (min_of l) as [m'|] eqn:Hm.
  - intros H; inversion H; subst. destruct (IH m' eq_refl) as [Hin Hall].
    split.
    + destruct (Z.min_spec x m') as [[_ ->] | [_ ->]]; auto.
    + constructor; [lia|].
      eapply Forall_impl; [|exact Hall]. simpl; intros; lia.
  - intros H; inversion H; subst. destruct l; [|simpl in Hm;
      destruct (min_of l); discriminate].
    split; [now left | repeat constructor; lia].
Qed.

Lemma min_of_none (l : list Z) : min_of l = None -> l = [].
Proof.
  destruct l as [|x l]; [reflexivity|]. simpl.
  destruct (min_of l); discriminate.
Qed.

Lemma front_starts_In (cals : list (list Event)) (m : Z) :
  In m (front_starts cals) ->
  exists e rest, In (e :: rest) cals /\ start_time e = m.
Proof.
  unfold front_starts. rewrite in_flat_map.
  intros (c & Hc & Hm). destruct c as [|e rest]; [destruct Hm|].
  destruct Hm as [<-|[]]. now exists e, rest.
Qed.

Lemma front_starts_nil (cals : list (list Event)) :
  front_starts cals = [] -> Forall (fun c => c = []) cals.
Proof.
  induction cals as [|c cals IH]; simpl; [constructor|].
  destruct c; simpl; [|discriminate].
  intros H; constructor; auto.
Qed.

Lemma map_drop_finished_trimmed (ptr : Z) (cals : list (list Event)) :
  Forall2 (trimmed ptr) cals (map (drop_finished ptr) cals).
Proof.
  induction cals; simpl; constructor; auto using drop_finished_trimmed.
Qed.

Lemma Forall2_trimmed_refl (ptr : Z) (cals : list (list Event)) :
  Forall2 (trimmed ptr) cals cals.
Proof. induction cals; constructor; auto using trimmed_refl. Qed.

(** The front event of every calendar starts at or after [lo]. *)
Definition fronts_from (lo : Z) (cals : list (list Event)) : Prop :=
  Forall (fun c => match c with
                   | [] => True
                   | e :: _ => lo <= start_time e
                   end) cals.

(** The three ways a pass can go: some calendar is busy at the pointer
    (the first such one moves the pointer to the end of its front event);
    none is and an event is left (a window is emitted up to the earliest
    front start); none is and no event is left (the last window is
    emitted and the loop breaks). *)
Lemma sweep_pass_cases (end_t : Z) (st : SweepState) :
  (exists before evs after e rest,
     events_list st = before ++ evs :: after /\
     Forall (front_free (pointer st)) before /\
     drop_finished (pointer st) evs = e :: rest /\
     start_time e <= pointer st /\
     sweep_pass end_t st =
     Continue (mkSweep (map (drop_finished (pointer st)) before ++
                          (e :: rest) :: after)
                 (end_time e) (overlapping_times st))) \/
  (Forall (front_free (pointer st)) (events_list st) /\
   exists next,
     min_of (front_starts (map (drop_finished (pointer st)) (events_list st)))
       = Some next /\
     sweep_pass end_t st =
     Continue (mkSweep (map (drop_finished (pointer st)) (events_list st))
                 next
                 (overlapping_times st ++
                    [free_time (pointer st) (Z.min next end_t)]))) \/
  (Forall (front_free (pointer st)) (events_list st) /\
   min_of (front_starts (map (drop_finished (pointer st)) (events_list st)))
     = None /\
   sweep_pass end_t st =
   Break (if negb (pointer st =? end_t)
          then overlapping_times st ++ [free_time (pointer st) end_t]
          else overlapping_times st)).
Proof.
  unfold sweep_pass.
  destruct (first_busy_calendar (pointer st) (events_list st))
    as [Hfree | (before & evs & after & e & rest & Heq & Hf & Hd & Hs)].
  - right. rewrite (scan_calendars_free _ _ Hfree).
    destruct (min_of _) as [next|] eqn:Hm.
    + left; split; [exact Hfree|]. exists next; split; reflexivity.
    + right; split; [exact Hfree|]. split; [reflexivity|].
      destruct (negb _); reflexivity.
  - left. exists before, evs, after, e, rest.
    rewrite Heq at 2. rewrite (scan_calendars_busy _ _ _ _ _ _ Hf Hd Hs).
    auto.
Qed.

(** What a pass that goes on leaves behind. *)
Lemma sweep_pass_continue (end_t : Z) (st st' : SweepState) :
  sweep_pass end_t st = Continue st' ->
  Forall2 (trimmed (pointer st)) (events_list st) (events_list st') /\
  ((overlapping_times st' = overlapping_times st /\
    exists e rest,
      In (e :: rest) (events_list st') /\
      start_time e <= pointer st < end_time e /\
      pointer st' = end_time e) \/
   (overlapping_times st' =
      overlapping_times st ++
        [free_time (pointer st) (Z.min (pointer st') end_t)] /\
    pointer st < pointer st' /\
    fronts_from (pointer st') (events_list st') /\
    exists e rest,
      In (e :: rest) (events_list st') /\
      start_time e = pointer st' /\ pointer st < end_time e)).
Proof.
  destruct (sweep_pass_cases end_t st)
    as [(before & evs & after & e & rest & Heq & Hf & Hd & Hs & Hp)
       | [(Hf & next & Hm & Hp) | (Hf & Hm & Hp)]];
    rewrite Hp; intros H; inversion H; subst; clear H; simpl.
  - split.
    + rewrite Heq. apply Forall2_app.
      * apply map_drop_finished_trimmed.
      * constructor; [|apply Forall2_trimmed_refl].
        rewrite <- Hd. apply drop_finished_trimmed.
    + left. split; [reflexivity|]. exists e, rest. split.
      * apply in_or_app; right; now left.
      * pose proof (drop_finished_front _ _ _ _ Hd). lia.
  - split; [apply map_drop_finished_trimmed|]. right.
    destruct (min_of_spec _ _ Hm) as [Hin Hmin].
    destruct (front_starts_In _ _ Hin) as (e & rest & He & Hstart).
    assert (Hfront : forall c x c', In c (events_list st) ->
              drop_finished (pointer st) c = x :: c' ->
              pointer st < start_time x /\ pointer st < end_time x /\
              next <= start_time x).
    { intros c x c' Hc Hx. rewrite Forall_forall in Hf.
      specialize (Hf c Hc). unfold front_free in Hf. rewrite Hx in Hf.
      split; [exact Hf|]. split; [eapply drop_finished_front; eauto|].
      rewrite Forall_forall in Hmin. apply Hmin.
      unfold front_starts. apply in_flat_map.
      exists (x :: c'). split; [|now left].
      rewrite <- Hx. now apply in_map. }
    apply in_map_iff in He as (c & Hc & Hcin).
    destruct (Hfront c e rest Hcin Hc) as (H1 & H2 & H3).
    split; [reflexivity|]. split; [lia|]. split.
    + unfold fronts_from. apply Forall_forall. intros c' Hc'.
      apply in_map_iff in Hc' as (c0 & <- & Hc0).
      destruct (drop_finished (pointer st) c0) as [|x c1] eqn:Hx; [exact I|].
      now destruct (Hfront c0 x c1 Hc0 Hx) as (_ & _ & ?).
    + exists e, rest. split; [|split; [exact Hstart | exact H2]].
      apply in_map_iff. now exists c.
Qed.

(** A pass breaks only when every calendar has run out. *)
Lemma sweep_pass_break (end_t : Z) (st : SweepState) (out : list Event) :
  sweep_pass end_t st = Break out ->
  Forall (fun c => Forall (fun e => end_time e <= pointer st) c)
    (events_list st) /\
  out = if negb (pointer st =? end_t)
        then overlapping_times st ++ [free_time (pointer st) end_t]
        else overlapping_times st.
Proof.
  destruct (sweep_pass_cases end_t st)
    as [(before & evs & after & e & rest & Heq & Hf & Hd & Hs & Hp)
       | [(Hf & next & Hm & Hp) | (Hf & Hm & Hp)]];
    rewrite Hp; intros H; inversion H; subst; clear H.
  split; [|reflexivity].
  apply min_of_none, front_starts_nil in Hm.
  rewrite Forall_forall in *. intros c Hc.
  specialize (Hm (drop_finished (pointer st) c) (in_map _ _ _ Hc)).
  destruct (drop_finished_trimmed (pointer st) c) as (d & Heq & Hd).
  rewrite Hm, app_nil_r in Heq. now subst.
Qed.

(** ** Termination of the sweep *)

Section ListSum.
Context {A : Type}.
Variables f g : A -> nat.

Lemma list_sum_map_le (l : list A) :
  (forall x, In x l -> (f x <= g x)%nat) ->
  (list_sum (map f l) <= list_sum (map g l))%nat.
Proof.
  induction l as [|x l IH]; simpl; intros H; [lia|].
  pose proof (H x (or_introl eq_refl)).
  assert (list_sum (map f l) <= list_sum (map g l))%nat
    by (apply IH; intros; apply H; now right).
  lia.
Qed.

Lemma list_sum_map_lt (l : list A) (x : A) :
  (forall y, In y l -> (f y <= g y)%nat) ->
  In x l -> (f x < g x)%nat ->
  (list_sum (map f l) < list_sum (map g l))%nat.
Proof.
  induction l as [|y l IH]; simpl; intros H Hin Hlt; [destruct Hin|].
  pose proof (H y (or_introl eq_refl)).
  assert (Hl : (list_sum (map f l) <= list_sum (map g l))%nat)
    by (apply list_sum_map_le; intros; apply H; now right).
  destruct Hin as [->|Hin]; [lia|].
  assert (list_sum (map f l) < list_sum (map g l))%nat
    by (apply IH; auto; intros; apply H; now right).
  lia.
Qed.
End ListSum.

Lemma bounds_ahead_mono (ptr ptr' : Z) (e : Event) :
  ptr <= ptr' -> (bounds_ahead ptr' e <= bounds_ahead ptr e)%nat.
Proof.
  intros H. unfold bounds_ahead.
  destruct (ptr' <? start_time e) eqn:H1, (ptr <? start_time e) eqn:H2,
           (ptr' <? end_time e) eqn:H3, (ptr <? end_time e) eqn:H4;
    simpl; try lia;
    repeat match goal with
           | H : (_ <? _) = true |- _ => apply Z.ltb_lt in H
           | H : (_ <? _) = false |- _ => apply Z.ltb_ge in H
           end; lia.
Qed.

Lemma bounds_ahead_passed (ptr ptr' : Z) (e : Event) :
  ptr <= ptr' ->
  ptr < start_time e <= ptr' \/ ptr < end_time e <= ptr' ->
  (bounds_ahead ptr' e < bounds_ahead ptr e)%nat.
Proof.
  intros H Hp. unfold bounds_ahead.
  destruct (ptr' <? start_time e) eqn:H1, (ptr <? start_time e) eqn:H2,
           (ptr' <? end_time e) eqn:H3, (ptr <? end_time e) eqn:H4;
    simpl; try lia;
    repeat match goal with
           | H : (_ <? _) = true |- _ => apply Z.ltb_lt in H
           | H : (_ <? _) = false |- _ => apply Z.ltb_ge in H
           end; lia.
Qed.

Lemma calendar_weight_mono (ptr ptr' : Z) (c : list Event) :
  ptr <= ptr' -> (calendar_weight ptr' c <= calendar_weight ptr c)%nat.
Proof.
  intros H. apply list_sum_map_le. intros; now apply bounds_ahead_mono.
Qed.

Lemma calendar_weight_trimmed (ptr q : Z) (c c' : list Event) :
  trimmed q c c' -> (calendar_weight ptr c' <= calendar_weight ptr c)%nat.
Proof.
  intros (d & -> & _). unfold calendar_weight.
  rewrite map_app, list_sum_app. lia.
Qed.

Lemma sweep_weight_trimmed (ptr q : Z) (cals cals' : list (list Event)) :
  Forall2 (trimmed q) cals cals' ->
  (sweep_weight ptr cals' <= sweep_weight ptr cals)%nat.
Proof.
  unfold sweep_weight. induction 1 as [|c c' cals cals' Hc _ IH]; simpl.
  - lia.
  - pose proof (calendar_weight_trimmed ptr q c c' Hc). lia.
Qed.

Lemma sweep_weight_passed (ptr ptr' : Z) (cals : list (list Event))
  (c : list Event) (e : Event) :
  ptr <= ptr' -> In c cals -> In e c ->
  ptr < start_time e <= ptr' \/ ptr < end_time e <= ptr' ->
  (sweep_weight ptr' cals < sweep_weight ptr cals)%nat.
Proof.
  intros Hle Hc He Hp. unfold sweep_weight.
  apply list_sum_map_lt with (x := c); auto.
  - intros; now apply calendar_weight_mono.
  - unfold calendar_weight. apply list_sum_map_lt with (x := e); auto.
    + intros; now apply bounds_ahead_mono.
    + now apply bounds_ahead_passed.
Qed.

(** A pass that goes on moves the pointer strictly forward and past a
    bound of some event still held. *)
Lemma sweep_pass_progress (end_t : Z) (st st' : SweepState) :
  sweep_pass end_t st = Continue st' ->
  pointer st < pointer st' /\
  (sweep_weight (pointer st') (events_list st') <
   sweep_weight (pointer st) (events_list st))%nat.
Proof.
  intros Hp.
  destruct (sweep_pass_continue _ _ _ Hp)
    as [Htrim [(_ & e & rest & Hin & Hbusy & Hptr)
              | (_ & Hlt & _ & e & rest & Hin & Hstart & Hend)]].
  - split; [lia|].
    apply Nat.lt_le_trans with (sweep_weight (pointer st) (events_list st')).
    + apply sweep_weight_passed with (c := e :: rest) (e := e);
        [lia | exact Hin | now left | lia].
    + eapply sweep_weight_trimmed; eauto.
  - split; [exact Hlt|].
    apply Nat.lt_le_trans with (sweep_weight (pointer st) (events_list st')).
    + apply sweep_weight_passed with (c := e :: rest) (e := e);
        [lia | exact Hin | now left | lia].
    + eapply sweep_weight_trimmed; eauto.
Qed.

(** With more passes allowed than the weight of the state, the loop
    ends. *)
Lemma sweep_loop_ends (end_t : Z) (fuel : nat) :
  forall st,
    (sweep_weight (pointer st) (events_list st) < fuel)%nat ->
    exists out, sweep_loop fuel end_t st = Some out.
Proof.
  induction fuel as [|fuel IH]; intros st Hw; [lia|]. simpl.
  destruct (pointer st <? end_t); [|eauto].
  destruct (sweep_pass end_t st) as [st'|out] eqn:Hp; [|eauto].
  apply IH. apply sweep_pass_progress in Hp. lia.
Qed.

Lemma sweep_returns (cals : list (list Event)) (start_t end_t : Z) :
  exists out, sweep cals start_t end_t = Some out.
Proof. unfold sweep. apply sweep_loop_ends. simpl. lia. Qed.

(** ** Invariants of the loop *)

(** The rule for a property [Inv] that every pass preserves: what it
    gives at the loop's exit holds of the result. *)
Lemma sweep_loop_invariant (end_t : Z) (Inv : SweepState -> Prop)
  (Post : list Event -> Prop) :
  (forall st st', Inv st -> pointer st < end_t ->
                  sweep_pass end_t st = Continue st' -> Inv st') ->
  (forall st out, Inv st -> pointer st < end_t ->
                  sweep_pass end_t st = Break out -> Post out) ->
  (forall st, Inv st -> end_t <= pointer st ->
              Post (overlapping_times st)) ->
  forall fuel st out,
    Inv st -> sweep_loop fuel end_t st = Some out -> Post out.
Proof.
  intros Hstep Hbreak Hexit.
  induction fuel as [|fuel IH]; intros st out Hinv; simpl; [discriminate|].
  destruct (pointer st <? end_t) eqn:Hc.
  - apply Z.ltb_lt in Hc.
    destruct (sweep_pass end_t st) as [st'|out'] eqn:Hp.
    + apply IH. eapply Hstep; eauto.
    + intros H; inversion H; subst. eapply Hbreak; eauto.
  - apply Z.ltb_ge in Hc. intros H; inversion H; subst. now apply Hexit.
Qed.

(** ** Properties of the sweep *)

(** C8: the loop of [get_inverse_schedule] ends on every list of
    calendars and every window (no condition on the events is needed):
    the sweep returns a result; a pass that goes on moves the pointer
    strictly forward and strictly lowers the number of event bounds still
    ahead of it; and once the pointer is at or beyond the window's end the
    loop returns what it has gathered. *)
Theorem sweep_terminates (cals : list (list Event)) (start_t end_t : Z) :
  (exists out, sweep cals start_t end_t = Some out) /\
  (forall st st',
     sweep_pass end_t st = Continue st' ->
     pointer st < pointer st' /\
     (sweep_weight (pointer st') (events_list st') <
      sweep_weight (pointer st) (events_list st))%nat) /\
  (forall fuel st,
     end_t <= pointer st ->
     sweep_loop (S fuel) end_t st = Some (overlapping_times st)).
Proof.
  split; [apply sweep_returns|]. split; [apply sweep_pass_progress|].
  intros fuel st H. simpl.
  destruct (pointer st <? end_t) eqn:Hc; [|reflexivity].
  apply Z.ltb_lt in Hc. lia.
Qed.

Lemma spec_busy_ends_free (ptr : Z) (cals : list (list Event)) :
  Forall (front_free ptr) cals -> spec_busy_ends ptr cals = [].
Proof.
  induction 1 as [|c cals Hc _ IH]; simpl; [reflexivity|].
  rewrite IH, app_nil_r. unfold front_free in Hc.
  destruct (drop_finished ptr c) as [|e rest]; [reflexivity|].
  destruct (start_time e <=? ptr) eqn:Hs; [|reflexivity].
  apply Z.leb_le in Hs. lia.
Qed.

(** C7 (as the code has it): in a pass in which at least one calendar's
    front event, after the finished events are dropped, has
    [start <= pointer], the pointer is set to the end of the front event
    of the first such calendar in the order of the list; that end is after
    the old pointer and at or after the minimum of the ends of all the
    busy front events.  Nothing is emitted, the calendars before that one
    have lost their finished events, the ones after it are untouched, and
    the loop goes back to its test with that state. *)
Theorem sweep_pass_busy (end_t : Z) (st : SweepState) :
  spec_busy_ends (pointer st) (events_list st) <> [] ->
  exists before evs after e rest,
    events_list st = before ++ evs :: after /\
    Forall (front_free (pointer st)) before /\
    drop_finished (pointer st) evs = e :: rest /\
    start_time e <= pointer st < end_time e /\
    (forall m, spec_min_busy_end (pointer st) (events_list st) = Some m ->
               m <= end_time e) /\
    sweep_pass end_t st =
    Continue (mkSweep (map (drop_finished (pointer st)) before ++
                         (e :: rest) :: after)
                (end_time e) (overlapping_times st)) /\
    (forall fuel, pointer st < end_t ->
       sweep_loop (S fuel) end_t st =
       sweep_loop fuel end_t
         (mkSweep (map (drop_finished (pointer st)) before ++
                     (e :: rest) :: after)
            (end_time e) (overlapping_times st))).
Proof.
  intros Hbusy.
  destruct (sweep_pass_cases end_t st)
    as [(before & evs & after & e & rest & Heq & Hf & Hd & Hs & Hp)
       | [(Hf & _) | (Hf & _)]];
    try (now apply spec_busy_ends_free in Hf).
  exists before, evs, after, e, rest.
  pose proof (drop_finished_front _ _ _ _ Hd) as Hend.
  repeat split; auto.
  - intros m Hm. apply min_of_spec in Hm as [_ Hmin].
    rewrite Forall_forall in Hmin. apply Hmin.
    unfold spec_busy_ends. apply in_flat_map. exists evs. split.
    + rewrite Heq. apply in_or_app; right; now left.
    + rewrite Hd. apply Z.leb_le in Hs. rewrite Hs. now left.
  - intros fuel Hlt. simpl. apply Z.ltb_lt in Hlt. now rewrite Hlt, Hp.
Qed.

Lemma sweep_pass_busy_witness :
  spec_busy_ends (pointer both_busy) (events_list both_busy) <> [] /\
  exists st',
    sweep_pass 20 both_busy = Continue st' /\
    overlapping_times st' = overlapping_times both_busy.
Proof.
  assert (H : spec_busy_ends (pointer both_busy) (events_list both_busy)
              <> []) by (vm_compute; discriminate).
  split; [exact H|].
  destruct (sweep_pass_busy 20 both_busy H)
    as (before & evs & after & e & rest & _ & _ & _ & _ & _ & Hp & _).
  eexists; split; [exact Hp | reflexivity].
Defined.

(** C7 as stated fails: with [cj] busy on [[0,10)] and [stef] on [[0,5)],
    both front events are busy at pointer 0 and the minimum of their ends
    is 5, but the pass sets the pointer to 10, the end of the first
    calendar's front event. *)
Lemma busy_pointer_is_not_min_end :
  spec_busy_ends (pointer both_busy) (events_list both_busy) = [10; 5] /\
  spec_min_busy_end (pointer both_busy) (events_list both_busy) = Some 5 /\
  sweep_pass 20 both_busy =
    Continue (mkSweep (events_list both_busy) 10 []) /\
  ~ (forall st' m,
       sweep_pass 20 both_busy = Continue st' ->
       spec_min_busy_end (pointer both_busy) (events_list both_busy)
         = Some m ->
       pointer st' = m).
Proof.
  repeat split; try reflexivity.
  intros H.
  specialize (H (mkSweep (events_list both_busy) 10 []) 5 eq_refl eq_refl).
  discriminate H.
Qed.

Section Ordered.
Context {A : Type}.
Variable R : A -> A -> Prop.

Lemma StronglySorted_snoc (l : list A) (x : A) :
  StronglySorted R l -> Forall (fun a => R a x) l ->
  StronglySorted R (l ++ [x]).
Proof.
  induction 1 as [|a l Hs IH Ha]; intros Hx; simpl.
  - repeat constructor.
  - inversion Hx; subst. constructor; [now apply IH|].
    apply Forall_app; split; [exact Ha | now constructor].
Qed.

Lemma StronglySorted_consecutive (l before after : list A) (a b : A) :
  StronglySorted R l -> l = before ++ a :: b :: after -> R a b.
Proof.
  intros Hs. revert before.
  induction Hs as [|x l Hs IH Hx]; intros [|y before] Heq;
    simpl in Heq; try discriminate; inversion Heq; subst.
  - now inversion Hx.
  - eapply IH; reflexivity.
Qed.
End Ordered.

(** A query whose window is empty returns at the first test of the
    loop. *)
Lemma sweep_empty_window (cals : list (list Event)) (start_t end_t : Z) :
  end_t <= start_t -> sweep cals start_t end_t = Some [].
Proof.
  intros H. unfold sweep. simpl.
  destruct (start_t <? end_t) eqn:Hc; [|reflexivity].
  apply Z.ltb_lt in Hc. lia.
Qed.

(** The windows gathered so far are non-empty, lie inside the query
    window and before the pointer, and are in time order. *)
Definition windows_behind (start_t end_t : Z) (st : SweepState) : Prop :=
  start_t <= pointer st /\
  Forall (fun w => start_t <= start_time w /\
                   start_time w < end_time w /\
                   end_time w <= end_t /\
                   end_time w <= pointer st) (overlapping_times st) /\
  windows_ordered (overlapping_times st).

Lemma windows_behind_emit (start_t end_t : Z) (st : SweepState) (w_end q : Z) :
  windows_behind start_t end_t st ->
  pointer st < w_end -> w_end <= end_t -> w_end <= q ->
  windows_behind start_t end_t
    (mkSweep (events_list st) q
       (overlapping_times st ++ [free_time (pointer st) w_end])).
Proof.
  intros (Hs & Hw & Ho) H1 H2 H3. unfold windows_behind; simpl.
  split; [lia|]. split.
  - apply Forall_app; split.
    + eapply Forall_impl; [|exact Hw]. simpl; intros; lia.
    + repeat constructor; simpl; lia.
  - apply StronglySorted_snoc; [exact Ho|].
    eapply Forall_impl; [|exact Hw]. simpl; intros; lia.
Qed.

Lemma windows_behind_pass (start_t end_t : Z) (st st' : SweepState) :
  windows_behind start_t end_t st -> pointer st < end_t ->
  sweep_pass end_t st = Continue st' ->
  windows_behind start_t end_t st'.
Proof.
  intros Hinv Hlt Hp.
  destruct (sweep_pass_continue _ _ _ Hp)
    as [_ [(Hout & e & rest & _ & Hbusy & Hptr)
          | (Hout & Hnext & _)]].
  - destruct Hinv as (Hs & Hw & Ho). unfold windows_behind.
    rewrite Hout. split; [lia|]. split; [|exact Ho].
    eapply Forall_impl; [|exact Hw]. simpl; intros; lia.
  - pose proof (windows_behind_emit start_t end_t st
                  (Z.min (pointer st') end_t) (pointer st') Hinv) as H.
    unfold windows_behind in *. rewrite Hout. simpl in H.
    apply H; lia.
Qed.

(** What holds of every result of the sweep. *)
Lemma sweep_windows_bounded (cals : list (list Event)) (start_t end_t : Z)
  (out : list Event) :
  sweep cals start_t end_t = Some out ->
  Forall (fun w => start_t <= start_time w /\
                   start_time w < end_time w /\
                   end_time w <= end_t) out /\
  windows_ordered out.
Proof.
  unfold sweep. intros Hout.
  eapply (sweep_loop_invariant end_t (windows_behind start_t end_t)
            (fun out =>
               Forall (fun w => start_t <= start_time w /\
                                start_time w < end_time w /\
                                end_time w <= end_t) out /\
               windows_ordered out));
    [ | | | | exact Hout].
  - intros st st'. apply windows_behind_pass.
  - intros st out' Hinv Hlt Hb.
    apply sweep_pass_break in Hb as [_ ->].
    destruct (pointer st =? end_t) eqn:Hc; [apply Z.eqb_eq in Hc; lia|].
    simpl.
    destruct (windows_behind_emit start_t end_t st end_t end_t Hinv)
      as (_ & Hw & Ho); try lia.
    simpl in Hw, Ho. split; [|exact Ho].
    eapply Forall_impl; [|exact Hw]. simpl; intros; lia.
  - intros st (_ & Hw & Ho) _. split; [|exact Ho].
    eapply Forall_impl; [|exact Hw]. simpl; intros; lia.
  - unfold windows_behind; simpl. split; [lia|].
    split; constructor.
Qed.

(** C10: the sweep returns a result; every window of it is non-empty and
    lies inside the query window
    ([windowStart <= start < end <= windowEnd]); of two consecutive
    windows the first ends at or before the start of the second; and a
    query with [windowStart = windowEnd] has the empty result. *)
Theorem sweep_windows_within (cals : list (list Event)) (start_t end_t : Z) :
  exists out,
    sweep cals start_t end_t = Some out /\
    Forall (fun w => start_t <= start_time w /\
                     start_time w < end_time w /\
                     end_time w <= end_t) out /\
    (forall w1 w2, consecutive out w1 w2 ->
                   end_time w1 <= start_time w2) /\
    (start_t = end_t -> out = []).
Proof.
  destruct (sweep_returns cals start_t end_t) as [out Hout].
  exists out. split; [exact Hout|].
  destruct (sweep_windows_bounded _ _ _ _ Hout) as [Hw Ho].
  split; [exact Hw|]. split.
  - intros w1 w2 (before & after & Heq).
    eapply (StronglySorted_consecutive _ out before after w1 w2 Ho Heq).
  - intros Heq. rewrite sweep_empty_window in Hout by lia.
    now inversion Hout.
Qed.

(** *** The calendars the sweep holds, against the ones it was given *)

Lemma Forall2_trimmed_later (ptr ptr' : Z) (a b : list (list Event)) :
  ptr <= ptr' -> Forall2 (trimmed ptr) a b -> Forall2 (trimmed ptr') a b.
Proof.
  intros Hle. induction 1; constructor; eauto using trimmed_later.
Qed.

Lemma Forall2_trimmed_trans (ptr : Z) (a b c : list (list Event)) :
  Forall2 (trimmed ptr) a b -> Forall2 (trimmed ptr) b c ->
  Forall2 (trimmed ptr) a c.
Proof.
  intros Hab. revert c.
  induction Hab; intros c Hbc; inversion Hbc; subst; constructor;
    eauto using trimmed_trans.
Qed.

(** Each pass keeps a suffix of every calendar, having dropped only
    events that end at or before the pointer. *)
Lemma trimmed_pass (cals : list (list Event)) (end_t : Z)
  (st st' : SweepState) :
  Forall2 (trimmed (pointer st)) cals (events_list st) ->
  sweep_pass end_t st = Continue st' ->
  Forall2 (trimmed (pointer st')) cals (events_list st').
Proof.
  intros Hinv Hp.
  pose proof (sweep_pass_progress _ _ _ Hp) as [Hlt _].
  apply sweep_pass_continue in Hp as [Htrim _].
  apply Forall2_trimmed_later with (ptr := pointer st); [lia|].
  eapply Forall2_trimmed_trans; eauto.
Qed.

Lemma trimmed_held (q : Z) (cals cals' : list (list Event))
  (c' : list Event) (e : Event) :
  Forall2 (trimmed q) cals cals' -> In c' cals' -> In e c' ->
  exists c, In c cals /\ In e c.
Proof.
  induction 1 as [|c0 c1 cals cals' Hc _ IH]; intros Hin He;
    [destruct Hin|].
  destruct Hin as [->|Hin].
  - destruct Hc as (d & -> & _). exists (d ++ c'). split; [now left|].
    apply in_or_app; now right.
  - destruct (IH Hin He) as (c & Hc' & Hec). exists c; split; auto.
    now right.
Qed.

(** From the pointer on, the calendars held are busy exactly when the
    ones given are. *)
Lemma trimmed_busy (q t : Z) (cals cals' : list (list Event)) :
  Forall2 (trimmed q) cals cals' -> q <= t ->
  (busy_at cals t <-> busy_at cals' t).
Proof.
  intros Htrim Hle. split.
  - intros (c & e & Hc & He & Hcov). revert c e Hc He Hcov.
    induction Htrim as [|c0 c1 cals cals' Hc01 _ IH];
      intros c e Hc He Hcov; [destruct Hc|].
    destruct Hc as [->|Hc].
    + destruct Hc01 as (d & -> & Hd).
      apply in_app_or in He as [He|He].
      * rewrite Forall_forall in Hd. specialize (Hd e He).
        unfold covers in Hcov. lia.
      * exists c1, e. split; [now left | auto].
    + destruct (IH c e Hc He Hcov) as (c' & e' & Hc' & He' & Hcov').
      exists c', e'. split; [now right | auto].
  - intros (c' & e & Hc' & He & Hcov).
    destruct (trimmed_held _ _ _ _ _ Htrim Hc' He) as (c & Hc & Hec).
    now exists c, e.
Qed.

(** A calendar whose front event is running at the pointer makes the pass
    a busy one: nothing is emitted and the loop does not break. *)
Lemma sweep_pass_front_running (end_t : Z) (st : SweepState)
  (e : Event) (rest : list Event) :
  In (e :: rest) (events_list st) ->
  start_time e <= pointer st < end_time e ->
  exists st',
    sweep_pass end_t st = Continue st' /\
    overlapping_times st' = overlapping_times st.
Proof.
  intros Hin Hrun.
  assert (Hno : ~ Forall (front_free (pointer st)) (events_list st)).
  { intros Hf. rewrite Forall_forall in Hf. specialize (Hf _ Hin).
    unfold front_free in Hf.
    rewrite drop_finished_keeps in Hf by lia. lia. }
  destruct (sweep_pass_cases end_t st)
    as [(before & evs & after & e' & rest' & Heq & Hf & Hd & Hs & Hp)
       | [(Hf & _) | (Hf & _)]]; try contradiction.
  eexists; split; [exact Hp | reflexivity].
Qed.

(** *** Windows that follow one another *)

(** [a] ends strictly before [b] starts, and some user is busy at the
    end of [a]. *)
Definition separated (cals : list (list Event)) (a b : Event) : Prop :=
  end_time a < start_time b /\ busy_at cals (end_time a).

(** The windows gathered so far are separated from one another; they all
    end where some user is busy; and either they all end strictly before
    the pointer or some calendar's front event is running at the
    pointer. *)
Definition windows_apart (cals : list (list Event)) (end_t : Z)
  (st : SweepState) : Prop :=
  Forall2 (trimmed (pointer st)) cals (events_list st) /\
  StronglySorted (separated cals) (overlapping_times st) /\
  Forall (fun w => end_time w <= pointer st) (overlapping_times st) /\
  (pointer st < end_t ->
   Forall (fun w => busy_at cals (end_time w)) (overlapping_times st) /\
   (Forall (fun w => end_time w < pointer st) (overlapping_times st) \/
    exists e rest, In (e :: rest) (events_list st) /\
                   start_time e <= pointer st < end_time e)).

Lemma windows_apart_snoc (cals : list (list Event)) (out : list Event)
  (ptr w_end : Z) :
  StronglySorted (separated cals) out ->
  Forall (fun w => busy_at cals (end_time w)) out ->
  Forall (fun w => end_time w < ptr) out ->
  StronglySorted (separated cals) (out ++ [free_time ptr w_end]).
Proof.
  intros Hs Hb Hl. apply StronglySorted_snoc; [exact Hs|].
  rewrite Forall_forall in *. intros w Hw. split; simpl; auto.
Qed.

Lemma windows_apart_pass (cals : list (list Event)) (end_t : Z)
  (st st' : SweepState) :
  Forall positive_length cals ->
  windows_apart cals end_t st -> pointer st < end_t ->
  sweep_pass end_t st = Continue st' ->
  windows_apart cals end_t st'.
Proof.
  intros Hpos (Htrim & Hs & Hle & Hrun) Hlt Hp.
  destruct (Hrun Hlt) as [Hbusy Hcase].
  pose proof (trimmed_pass _ _ _ _ Htrim Hp) as Htrim'.
  pose proof (sweep_pass_progress _ _ _ Hp) as [Hfwd _].
  assert (Hquiet : overlapping_times st' = overlapping_times st ->
                   windows_apart cals end_t st').
  { intros Hout. unfold windows_apart. rewrite Hout.
    split; [exact Htrim'|]. split; [exact Hs|]. split.
    - eapply Forall_impl; [|exact Hle]. simpl; intros; lia.
    - intros _. split; [exact Hbusy|]. left.
      eapply Forall_impl; [|exact Hle]. simpl; intros; lia. }
  destruct Hcase as [Hbehind | (e & rest & Hin & Hr)].
  - destruct (sweep_pass_continue _ _ _ Hp)
      as [_ [(Hout & _) | (Hout & _ & _ & e & rest & Hin & Hstart & _)]];
      [now apply Hquiet|].
    unfold windows_apart. rewrite Hout.
    split; [exact Htrim'|]. split; [now apply windows_apart_snoc|].
    assert (Hpending : pointer st' < end_t ->
              start_time e <= pointer st' < end_time e).
    { intros _.
      destruct (trimmed_held _ _ _ _ _ Htrim' Hin (or_introl eq_refl))
        as (c & Hc & Hec).
      rewrite Forall_forall in Hpos. specialize (Hpos c Hc).
      unfold positive_length in Hpos. rewrite Forall_forall in Hpos.
      specialize (Hpos e Hec). lia. }
    split.
    + apply Forall_app; split.
      * eapply Forall_impl; [|exact Hbehind]. simpl; intros; lia.
      * repeat constructor; simpl; lia.
    + intros Hlt'. specialize (Hpending Hlt'). split.
      * apply Forall_app; split; [exact Hbusy|].
        repeat constructor; simpl.
        rewrite Z.min_l by lia.
        apply (trimmed_busy (pointer st') (pointer st') cals
                 (events_list st') Htrim'); [lia|].
        exists (e :: rest), e. split; [exact Hin|].
        split; [now left | exact Hpending].
      * right. now exists e, rest.
  - destruct (sweep_pass_front_running end_t st e rest Hin Hr)
      as (st2 & Hp2 & Hout).
    rewrite Hp in Hp2. inversion Hp2; subst. now apply Hquiet.
Qed.

(** Under [windows_apart] the result of the loop is separated. *)
Lemma sweep_loop_apart (cals : list (list Event)) (end_t : Z) (fuel : nat)
  (st : SweepState) (out : list Event) :
  Forall positive_length cals ->
  windows_apart cals end_t st ->
  sweep_loop fuel end_t st = Some out ->
  StronglySorted (separated cals) out.
Proof.
  intros Hpos Hinv Hout.
  eapply (sweep_loop_invariant end_t (windows_apart cals end_t)
            (StronglySorted (separated cals)));
    [ | | | exact Hinv | exact Hout].
  - intros s s'. now apply windows_apart_pass.
  - intros s out' (Htrim & Hs & Hle & Hrun) Hlt Hb.
    destruct (Hrun Hlt) as [Hbusy [Hbehind | (e & rest & Hin & Hr)]].
    + apply sweep_pass_break in Hb as [_ ->].
      destruct (negb _); [|exact Hs].
      now apply windows_apart_snoc.
    + destruct (sweep_pass_front_running end_t s e rest Hin Hr)
        as (s2 & Hp2 & _).
      rewrite Hb in Hp2. discriminate.
  - intros s (_ & Hs & _) _. exact Hs.
Qed.

(** C4 (as the code has it): when every event of every calendar has
    positive length ([start < end]), the sweep returns a result in which,
    of two consecutive windows, the first ends strictly before the second
    starts and some user is busy at the end of the first: no two windows
    share a boundary. *)
Theorem sweep_windows_separated (cals : list (list Event))
  (start_t end_t : Z) :
  Forall positive_length cals ->
  exists out,
    sweep cals start_t end_t = Some out /\
    forall w1 w2, consecutive out w1 w2 ->
                  end_time w1 < start_time w2 /\
                  busy_at cals (end_time w1).
Proof.
  intros Hpos.
  destruct (sweep_returns cals start_t end_t) as [out Hout].
  exists out. split; [exact Hout|].
  assert (Hs : StronglySorted (separated cals) out).
  { unfold sweep in Hout.
    eapply sweep_loop_apart; [exact Hpos | | exact Hout].
    unfold windows_apart; simpl.
    split; [apply Forall2_trimmed_refl|].
    split; [constructor|]. split; [constructor|].
    intros _. split; [constructor | left; constructor]. }
  intros w1 w2 (before & after & Heq).
  exact (StronglySorted_consecutive _ out before after w1 w2 Hs Heq).
Qed.

Lemma sweep_windows_separated_witness :
  Forall positive_length [[cj_event "A" 3 5]; [stef_event "B" 4 7]] /\
  sweep [[cj_event "A" 3 5]; [stef_event "B" 4 7]] 0 10 =
    Some [free_time 0 3; free_time 7 10] /\
  consecutive [free_time 0 3; free_time 7 10]
    (free_time 0 3) (free_time 7 10) /\
  end_time (free_time 0 3) < start_time (free_time 7 10) /\
  busy_at [[cj_event "A" 3 5]; [stef_event "B" 4 7]]
    (end_time (free_time 0 3)).
Proof.
  assert (H : Forall positive_length
                [[cj_event "A" 3 5]; [stef_event "B" 4 7]])
    by (repeat constructor; simpl; lia).
  assert (Hval : sweep [[cj_event "A" 3 5]; [stef_event "B" 4 7]] 0 10 =
                 Some [free_time 0 3; free_time 7 10]) by reflexivity.
  assert (Hc : consecutive [free_time 0 3; free_time 7 10]
                 (free_time 0 3) (free_time 7 10))
    by (exists [], []; reflexivity).
  destruct (sweep_windows_separated
              [[cj_event "A" 3 5]; [stef_event "B" 4 7]] 0 10 H)
    as (out & Hout & Hsep).
  rewrite Hval in Hout. injection Hout as <-.
  split; [exact H|]. split; [exact Hval|]. split; [exact Hc|].
  exact (Hsep _ _ Hc).
Defined.

(** C4 as stated fails: the zero-length event [Z = [5,5)] is accepted by
    [add_event]; a query of [cj]'s free time over [[0,10)] then returns
    the two windows [[0,5)] and [[5,10)], which share the boundary 5, and
    no user is busy at any time. *)
Lemma zero_length_event_splits_window :
  fst (add_event cj_db "cj" "Z" 5 5 []) = Ok tt /\
  get_sorted_events cj_db_Z "cj" = Ok [cj_event "Z" 5 5] /\
  get_inverse_schedule cj_db_Z ["cj"%string] 0 10 =
    Ok (Some [free_time 0 5; free_time 5 10]) /\
  consecutive [free_time 0 5; free_time 5 10]
    (free_time 0 5) (free_time 5 10) /\
  end_time (free_time 0 5) = start_time (free_time 5 10) /\
  forall t, ~ busy_at [[cj_event "Z" 5 5]] t.
Proof.
  repeat split; try reflexivity.
  - exists [], []. reflexivity.
  - intros t (c & e & Hc & He & Hcov).
    destruct Hc as [<-|[]]. destruct He as [<-|[]].
    unfold covers in Hcov; simpl in Hcov. lia.
Qed.

(** *** The windows against the busy time *)

(** Time [t] is either inside an emitted window and free for every user,
    or outside all of them and busy for some user. *)
Definition classified (cals : list (list Event)) (out : list Event)
  (t : Z) : Prop :=
  (in_windows out t /\ ~ busy_at cals t) \/
  (~ in_windows out t /\ busy_at cals t).

(** Up to the pointer, the windows gathered so far are exactly the free
    time of the window. *)
Definition swept (cals : list (list Event)) (start_t end_t : Z)
  (st : SweepState) : Prop :=
  windows_behind start_t end_t st /\
  Forall2 (trimmed (pointer st)) cals (events_list st) /\
  forall t, start_t <= t -> t < pointer st -> t < end_t ->
            classified cals (overlapping_times st) t.

Lemma start_sorted_trimmed (q : Z) (c c' : list Event) :
  trimmed q c c' -> start_sorted c -> start_sorted c'.
Proof.
  intros (d & -> & _). unfold start_sorted.
  induction d as [|x d IH]; simpl; [auto|].
  intros H; inversion H; auto.
Qed.

Lemma start_sorted_held (q : Z) (cals cals' : list (list Event)) :
  Forall2 (trimmed q) cals cals' ->
  Forall start_sorted cals -> Forall start_sorted cals'.
Proof.
  induction 1 as [|c c' cals cals' Hc _ IH]; intros Hs; [constructor|].
  inversion Hs; subst. constructor; eauto using start_sorted_trimmed.
Qed.

(** In calendars sorted by start whose front events all start at or
    after [lo], nobody is busy before [lo]. *)
Lemma fronts_from_free (lo t : Z) (cals : list (list Event)) :
  Forall start_sorted cals -> fronts_from lo cals -> t < lo ->
  ~ busy_at cals t.
Proof.
  intros Hs Hf Hlt (c & e & Hc & He & Hcov).
  unfold fronts_from in Hf. rewrite Forall_forall in Hs, Hf.
  specialize (Hs c Hc). specialize (Hf c Hc).
  destruct c as [|f rest]; [destruct He|].
  unfold start_sorted in Hs. inversion Hs as [|? ? _ Hall]; subst.
  unfold covers in Hcov.
  destruct He as [->|He]; [lia|].
  rewrite Forall_forall in Hall. specialize (Hall e He). lia.
Qed.

Lemma in_windows_snoc (out : list Event) (w : Event) (t : Z) :
  in_windows (out ++ [w]) t <-> in_windows out t \/ covers w t.
Proof.
  unfold in_windows. split.
  - intros (x & Hx & Hc). apply in_app_or in Hx as [Hx|[<-|[]]]; eauto.
  - intros [(x & Hx & Hc) | Hc].
    + exists x. split; [apply in_or_app; now left | exact Hc].
    + exists w. split; [apply in_or_app; right; now left | exact Hc].
Qed.

(** No window gathered so far reaches the pointer. *)
Lemma windows_behind_not_ahead (start_t end_t : Z) (st : SweepState)
  (t : Z) :
  windows_behind start_t end_t st -> pointer st <= t ->
  ~ in_windows (overlapping_times st) t.
Proof.
  intros (_ & Hw & _) Hle (w & Hin & Hcov).
  rewrite Forall_forall in Hw. specialize (Hw w Hin).
  unfold covers in Hcov. lia.
Qed.

(** Emitting the window from the pointer to [w_end], with nobody busy in
    it, keeps the times before [q] classified. *)
Lemma classified_emit (cals : list (list Event)) (start_t end_t : Z)
  (st : SweepState) (w_end q : Z) :
  windows_behind start_t end_t st ->
  (forall t, start_t <= t -> t < pointer st -> t < end_t ->
             classified cals (overlapping_times st) t) ->
  (forall t, pointer st <= t -> t < q -> ~ busy_at cals t) ->
  (forall t, t < q -> t < end_t -> t < w_end) ->
  forall t, start_t <= t -> t < q -> t < end_t ->
    classified cals
      (overlapping_times st ++ [free_time (pointer st) w_end]) t.
Proof.
  intros Hbehind Hold Hfree Hend t H1 H2 H3. unfold classified.
  destruct (Z_lt_le_dec t (pointer st)) as [Hlt|Hge].
  - destruct (Hold t H1 Hlt H3) as [[Hin Hb] | [Hout Hb]].
    + left. split; [|exact Hb]. apply in_windows_snoc; now left.
    + right. split; [|exact Hb]. rewrite in_windows_snoc.
      intros [Hin | Hcov]; [contradiction|].
      unfold covers in Hcov; simpl in Hcov. lia.
  - left. split; [|now apply Hfree].
    apply in_windows_snoc; right. unfold covers; simpl.
    specialize (Hend t H2 H3). lia.
Qed.

Lemma swept_pass (cals : list (list Event)) (start_t end_t : Z)
  (st st' : SweepState) :
  Forall start_sorted cals ->
  swept cals start_t end_t st -> pointer st < end_t ->
  sweep_pass end_t st = Continue st' ->
  swept cals start_t end_t st'.
Proof.
  intros Hsorted (Hbehind & Htrim & Hclass) Hlt Hp.
  pose proof (windows_behind_pass _ _ _ _ Hbehind Hlt Hp) as Hbehind'.
  pose proof (trimmed_pass _ _ _ _ Htrim Hp) as Htrim'.
  split; [exact Hbehind'|]. split; [exact Htrim'|].
  destruct (sweep_pass_continue _ _ _ Hp)
    as [Hstep [(Hout & e & rest & Hin & Hbusy & Hptr)
              | (Hout & Hnext & Hfronts & _)]].
  - rewrite Hout. intros t H1 H2 H3.
    destruct (Z_lt_le_dec t (pointer st)) as [Hlt'|Hge]; [now apply Hclass|].
    right. split; [now apply (windows_behind_not_ahead start_t end_t)|].
    destruct (trimmed_held _ _ _ _ _ Htrim' Hin (or_introl eq_refl))
      as (c & Hc & Hec).
    exists c, e. split; [exact Hc|]. split; [exact Hec|].
    unfold covers. lia.
  - rewrite Hout.
    apply (classified_emit cals start_t end_t st); auto.
    + intros t Hge Hlt' Hb.
      assert (Hheld : Forall2 (trimmed (pointer st)) cals (events_list st'))
        by (eapply Forall2_trimmed_trans; eauto).
      apply (trimmed_busy _ t _ _ Hheld Hge) in Hb.
      revert Hb. apply (fronts_from_free (pointer st')); auto.
      eapply start_sorted_held; eauto.
    + intros; lia.
Qed.

(** Under [swept] the result of the loop classifies the whole window. *)
Lemma sweep_loop_swept (cals : list (list Event)) (start_t end_t : Z)
  (fuel : nat) (st : SweepState) (out : list Event) :
  Forall start_sorted cals ->
  swept cals start_t end_t st ->
  sweep_loop fuel end_t st = Some out ->
  forall t, start_t <= t < end_t -> classified cals out t.
Proof.
  intros Hsorted Hinv Hout.
  eapply (sweep_loop_invariant end_t (swept cals start_t end_t)
            (fun out => forall t, start_t <= t < end_t ->
                                  classified cals out t));
    [ | | | exact Hinv | exact Hout].
  - intros s s'. now apply swept_pass.
  - intros s out' (Hbehind & Htrim & Hclass) Hlt Hb t Ht.
    apply sweep_pass_break in Hb as [Hdone ->].
    destruct (pointer s =? end_t) eqn:Hc; [apply Z.eqb_eq in Hc; lia|].
    simpl.
    apply (classified_emit cals start_t end_t s end_t end_t); auto; try lia.
    intros u Hge _ Hb.
    apply (trimmed_busy _ u _ _ Htrim Hge) in Hb.
    destruct Hb as (c & e & Hc' & He & Hcov).
    rewrite Forall_forall in Hdone. specialize (Hdone c Hc').
    rewrite Forall_forall in Hdone. specialize (Hdone e He).
    unfold covers in Hcov. lia.
  - intros s (_ & _ & Hclass) Hge t Ht. apply Hclass; lia.
Qed.

(** On calendars sorted by start, the result of the sweep classifies
    every time of the window. *)
Lemma sweep_classifies (cals : list (list Event)) (start_t end_t : Z)
  (out : list Event) :
  Forall start_sorted cals ->
  sweep cals start_t end_t = Some out ->
  forall t, start_t <= t < end_t -> classified cals out t.
Proof.
  intros Hsorted Hout. unfold sweep in Hout.
  eapply sweep_loop_swept; [exact Hsorted | | exact Hout].
  unfold swept, windows_behind; simpl.
  split; [split; [lia | split; constructor]|].
  split; [apply Forall2_trimmed_refl|].
  intros; lia.
Qed.





(** * The rest of [data_handling.py] *)


(** ** The friends table *)

(** A row of the table [friends]. *)
Record FriendRow : Type := mkFriendRow {
  f_user_id : nat;
  f_friend_id : nat
}.

(** The store with its fourth table. *)
Record Store : Type := mkStore {
  tables : Database;
  friends : list FriendRow
}.

(** How [add_friend] ends: it returns, [get_id] raises, or the error of
    line 122 is raised,
    "{friend_username} is already a friend of {username}". *)
Inductive FriendOutcome : Type :=
| Befriended
| LookupRaised (e : ValueError)
| AlreadyFriend (friend_username name : string).

(** [SELECT * FROM friends WHERE user_id = ? AND friend_id = ?] yields a
    row. *)
Definition friend_row_in (uid fid : nat) (rows : list FriendRow) : bool :=
  existsb (fun r => Nat.eqb (f_user_id r) uid && Nat.eqb (f_friend_id r) fid)
    rows.

(** [Database.add_friend]: the two ids are looked up in order (the user's
    first); a row already there raises, otherwise ([StopIteration]) the
    row is inserted. *)
Definition add_friend (s : Store) (name friend_username : string)
  : FriendOutcome * Store :=
  match get_id (tables s) name with
  | Raise e => (LookupRaised e, s)
  | Ok uid =>
      match get_id (tables s) friend_username with
      | Raise e => (LookupRaised e, s)
      | Ok fid =>
          if friend_row_in uid fid (friends s)
          then (AlreadyFriend friend_username name, s)
          else (Befriended,
                mkStore (tables s) (friends s ++ [mkFriendRow uid fid]))
      end
  end.

(** [Database.get_friends]: the usernames [f.username] of
    [friends JOIN users u JOIN users f WHERE u.username = ?].  The query
    has no [ORDER BY]: the rows are listed here in the order of the
    table, and what is proved of the result uses only which usernames it
    holds, never their order. *)
Definition get_friends (s : Store) (name : string) : list string :=
  flat_map (fun r =>
    flat_map (fun u =>
      if (Nat.eqb (f_user_id r) (user_id u) && String.eqb (u_username u) name)%bool
      then
        flat_map (fun f =>
          if Nat.eqb (f_friend_id r) (user_id f) then [u_username f] else [])
          (users (tables s))
      else [])
      (users (tables s)))
    (friends s).

(** ** The shape of a store built by the calls of [Database] *)

(** Usernames and user ids are not repeated, and no id of a user, an
    event or a recurrence row, and no user id held by an event, is beyond
    the number of rows of its table. *)
Definition store_ok (db : Database) : Prop :=
  NoDup (usernames db) /\
  NoDup (map user_id (users db)) /\
  Forall (fun u => (user_id u <= length (users db))%nat) (users db) /\
  Forall (fun ev => (event_id ev <= length (events db))%nat) (events db) /\
  Forall (fun r => (r_event_id r <= length (events db))%nat) (recurring db) /\
  Forall (fun ev => (e_user_id ev <= length (users db))%nat) (events db).

(** The event [add_event] stores, as [get_sorted_events] returns it. *)
Definition stored_event (name ev_name : string) (start_t end_t : Z)
  (days : list (string * bool)) : Event :=
  mkEvent name ev_name start_t end_t
    (days_get days "mon") (days_get days "tue") (days_get days "wed")
    (days_get days "thur") (days_get days "fri") (days_get days "sat")
    (days_get days "sun").

(** ** [bisect_left] as a count *)

Lemma sorted_nth (a : list Z) :
  StronglySorted Z.le a ->
  forall i j : nat, (i <= j < length a)%nat -> nth i a 0 <= nth j a 0.
Proof.
  induction 1 as [|x a Hs IH Hx]; intros i j Hij; simpl in *; [lia|].
  destruct i as [|i], j as [|j]; try lia.
  - rewrite Forall_forall in Hx. apply Hx. apply nth_In. lia.
  - apply IH. lia.
Qed.

Lemma split_point_counts (x : Z) (a : list Z) :
  forall p : nat,
    (p <= length a)%nat ->
    (forall i, (i < p)%nat -> nth i a 0 < x) ->
    (forall i, (p <= i < length a)%nat -> x <= nth i a 0) ->
    length (filter (fun y => y <? x) a) = p.
Proof.
  induction a as [|y a IH]; intros p Hp Hlo Hhi; simpl in *; [lia|].
  destruct p as [|p].
  - assert (Hy : x <= y) by (apply (Hhi 0%nat); lia).
    apply Z.ltb_ge in Hy. rewrite Hy.
    apply IH; [lia | intros; lia |].
    intros i Hi. apply (Hhi (S i)). lia.
  - assert (Hy : y < x) by (apply (Hlo 0%nat); lia).
    apply Z.ltb_lt in Hy. rewrite Hy. simpl. f_equal.
    apply IH; [lia | |].
    + intros i Hi. apply (Hlo (S i)). lia.
    + intros i Hi. apply (Hhi (S i)). lia.
Qed.

(** X1: on a list in ascending order, [bisect_left a x] is the number of
    elements of [a] that are strictly below [x]. *)
Theorem bisect_left_counts_below (a : list Z) (x : Z) :
  StronglySorted Z.le a ->
  bisect_left a x = length (filter (fun y => y <? x) a).
Proof.
  intros Hs. symmetry.
  destruct (bisect_left_splits a x (sorted_nth a Hs)) as [Hlo Hhi].
  apply split_point_counts; auto using bisect_left_le_length.
Qed.

Lemma bisect_left_counts_below_witness :
  StronglySorted Z.le [1; 3; 3; 5] /\
  bisect_left [1; 3; 3; 5] 3 = 1%nat.
Proof.
  assert (H : StronglySorted Z.le [1; 3; 3; 5])
    by (repeat constructor; lia).
  split; [exact H|].
  rewrite (bisect_left_counts_below [1; 3; 3; 5] 3 H). reflexivity.
Defined.

(** ** Users *)

Lemma username_in_iff (name : string) (db : Database) :
  username_in name db = true <-> In name (usernames db).
Proof.
  unfold username_in. rewrite existsb_exists. split.
  - intros (x & Hx & Heq). apply String.eqb_eq in Heq. now subst.
  - intros H. exists name. split; [exact H | apply String.eqb_refl].
Qed.

Lemma get_id_found (db : Database) (name : string) :
  username_in name db = true ->
  exists u, In u (users db) /\ u_username u = name /\
            get_id db name = Ok (user_id u).
Proof.
  intros H. apply username_in_iff in H. unfold usernames in H.
  apply in_map_iff in H as (u0 & Hname & Hin).
  unfold get_id.
  destruct (find _ (users db)) as [u|] eqn:Hf.
  - apply find_some in Hf as [Hu Heq]. apply String.eqb_eq in Heq.
    exists u. auto.
  - apply (find_none _ _ Hf) in Hin. simpl in Hin.
    rewrite Hname, String.eqb_refl in Hin. discriminate.
Qed.

Lemma get_id_missing (db : Database) (name : string) :
  username_in name db = false ->
  get_id db name = Raise (UserDoesNotExist name).
Proof.
  intros H. unfold get_id.
  destruct (find _ (users db)) as [u|] eqn:Hf; [|reflexivity].
  apply find_some in Hf as [Hu Heq]. apply String.eqb_eq in Heq.
  assert (username_in name db = true).
  { apply username_in_iff. unfold usernames. apply in_map_iff. eauto. }
  congruence.
Qed.

(** X2: [get_id] returns the id of a row of [users] with that username
    when the username is in the store, and raises "User ... doesn't
    exist" when it is not. *)
Theorem get_id_of_known_user (db : Database) (name : string) :
  (username_in name db = true ->
   exists u, In u (users db) /\ u_username u = name /\
             get_id db name = Ok (user_id u)) /\
  (username_in name db = false ->
   get_id db name = Raise (UserDoesNotExist name)).
Proof.
  split; [apply get_id_found | apply get_id_missing].
Qed.

Lemma username_in_add_user (db : Database) (name password other : string) :
  username_in name db = false ->
  username_in other (snd (add_user db name password)) =
  (String.eqb other name || username_in other db)%bool.
Proof.
  intros Hfresh. unfold add_user. rewrite Hfresh. simpl.
  unfold username_in, usernames. simpl.
  rewrite map_app, existsb_app. simpl.
  rewrite orb_false_r. apply orb_comm.
Qed.

Lemma find_app_found {A : Type} (f : A -> bool) (l l' : list A) (x : A) :
  find f l = Some x -> find f (l ++ l') = Some x.
Proof.
  induction l as [|y l IH]; simpl; [discriminate|].
  destruct (f y); auto.
Qed.

Lemma get_id_add_user (db : Database) (name password other : string) :
  username_in other db = true ->
  get_id (snd (add_user db name password)) other = get_id db other.
Proof.
  intros Hother. unfold add_user.
  destruct (username_in name db); [reflexivity|]. simpl.
  destruct (get_id_found db other Hother) as (u & _ & _ & Hid).
  unfold get_id in *. simpl.
  destruct (find _ (users db)) as [u'|] eqn:Hf; [|discriminate].
  now rewrite (find_app_found _ _ _ _ Hf).
Qed.

(** X3: [add_user] with a username already in the store raises "Username
    ... is already taken" and leaves the store as it was.  With a new
    username it returns; afterwards that username is in the store, the
    other usernames are in the store exactly when they were, the ids of
    the users already there are unchanged, no event is touched, and a
    second [add_user] with the same username raises. *)
Theorem add_user_registers (db : Database) (name password : string) :
  (username_in name db = true ->
   add_user db name password = (Raise (UsernameTaken name), db)) /\
  (username_in name db = false ->
   fst (add_user db name password) = Ok tt /\
   username_in name (snd (add_user db name password)) = true /\
   (forall other, other <> name ->
      username_in other (snd (add_user db name password)) =
      username_in other db) /\
   (forall other, username_in other db = true ->
      get_id (snd (add_user db name password)) other = get_id db other) /\
   events (snd (add_user db name password)) = events db /\
   recurring (snd (add_user db name password)) = recurring db /\
   forall password',
     add_user (snd (add_user db name password)) name password' =
     (Raise (UsernameTaken name), snd (add_user db name password))).
Proof.
  split.
  - intros H. unfold add_user. now rewrite H.
  - intros H.
    assert (Hin : username_in name (snd (add_user db name password)) = true).
    { rewrite username_in_add_user by exact H.
      now rewrite String.eqb_refl. }
    split; [unfold add_user; now rewrite H|].
    split; [exact Hin|]. split; [|split; [|split; [|split]]].
    + intros other Hne. rewrite username_in_add_user by exact H.
      apply String.eqb_neq in Hne. now rewrite Hne.
    + intros other Ho. now apply get_id_add_user.
    + unfold add_user; now rewrite H.
    + unfold add_user; now rewrite H.
    + intros password'. unfold add_user at 1. now rewrite Hin.
Qed.

(** ** The calendar of a user *)

Lemma insert_by_end_perm (e : Event) (l : list Event) :
  Permutation (insert_by_end e l) (e :: l).
Proof.
  induction l as [|x l IH]; simpl; [reflexivity|].
  destruct (end_time e <=? end_time x); [reflexivity|].
  rewrite IH. apply perm_swap.
Qed.

Lemma order_by_end_perm (l : list Event) : Permutation (order_by_end l) l.
Proof.
  induction l as [|e l IH]; simpl; [reflexivity|].
  rewrite insert_by_end_perm. now constructor.
Qed.

(** The rows the join gives for one row of [events]. *)
Definition rows_of_event (us : list UserRow) (rs : list RecurringRow)
  (name : string) (ev : EventRow) : list Event :=
  flat_map (fun u =>
    if (Nat.eqb (e_user_id ev) (user_id u) && String.eqb (u_username u) name)%bool
    then
      flat_map (fun r =>
        if Nat.eqb (event_id ev) (r_event_id r)
        then [mkEvent name (e_event_name ev) (e_start_time ev) (e_end_time ev)
                (r_mon r) (r_tue r) (r_wed r) (r_thur r)
                (r_fri r) (r_sat r) (r_sun r)]
        else [])
        rs
    else [])
    us.

Lemma joined_rows_by_event (db : Database) (name : string) :
  joined_rows db name =
  flat_map (rows_of_event (users db) (recurring db) name) (events db).
Proof. reflexivity. Qed.

Lemma rows_of_event_origin (us : list UserRow) (rs : list RecurringRow)
  (name : string) (ev : EventRow) (e : Event) :
  In e (rows_of_event us rs name ev) ->
  username e = name /\ event_name e = e_event_name ev /\
  start_time e = e_start_time ev /\ end_time e = e_end_time ev.
Proof.
  unfold rows_of_event. rewrite in_flat_map. intros (u & _ & Hu).
  destruct (_ && _)%bool; [|destruct Hu].
  apply in_flat_map in Hu as (r & _ & Hr).
  destruct (Nat.eqb _ _); [|destruct Hr].
  destruct Hr as [<-|[]]. auto.
Qed.

(** X4: for a username that is not in the store [get_sorted_events]
    raises "Username ... doesn't exist".  For one that is, it returns a
    list in ascending order of [end_time] in which every event carries
    that username and the name, start and end of a row of [events]; with
    no row in [events] the list is empty. *)
Theorem get_sorted_events_calendar (db : Database) (name : string) :
  (username_in name db = false ->
   get_sorted_events db name = Raise (UsernameDoesNotExist name)) /\
  (username_in name db = true ->
   exists evs,
     get_sorted_events db name = Ok evs /\
     end_sorted evs /\
     (events db = [] -> evs = []) /\
     forall e, In e evs ->
       username e = name /\
       exists row, In row (events db) /\
                   event_name e = e_event_name row /\
                   start_time e = e_start_time row /\
                   end_time e = e_end_time row).
Proof.
  unfold get_sorted_events. split; intros H; rewrite H; simpl.
  - reflexivity.
  - exists (order_by_end (joined_rows db name)).
    split; [reflexivity|]. split; [apply order_by_end_sorted|]. split.
    + intros Hnil. unfold joined_rows. now rewrite Hnil.
    + intros e He.
      apply (Permutation_in _ (order_by_end_perm _)) in He.
      rewrite joined_rows_by_event in He.
      apply in_flat_map in He as (row & Hrow & He).
      apply rows_of_event_origin in He as (? & ? & ? & ?).
      split; [assumption|]. exists row. auto.
Qed.

(** ** What [add_event] changes *)

(** The effect of [add_event] on the three tables. *)
Lemma add_event_effect (db : Database) (name ev_name : string)
  (start_t end_t : Z) (days : list (string * bool)) :
  users (snd (add_event db name ev_name start_t end_t days)) = users db /\
  (forall err,
     fst (add_event db name ev_name start_t end_t days) = Raise err ->
     snd (add_event db name ev_name start_t end_t days) = db) /\
  (fst (add_event db name ev_name start_t end_t days) = Ok tt ->
   exists uid,
     get_id db name = Ok uid /\
     events (snd (add_event db name ev_name start_t end_t days)) =
       events db ++
         [mkEventRow (next_rowid (events db)) uid ev_name start_t end_t] /\
     recurring (snd (add_event db name ev_name start_t end_t days)) =
       recurring db ++
         [mkRecurringRow (next_rowid (events db))
            (days_get days "mon") (days_get days "tue")
            (days_get days "wed") (days_get days "thur")
            (days_get days "fri") (days_get days "sat")
            (days_get days "sun")]).
Proof.
  unfold add_event.
  destruct (negb (username_in name db)); simpl;
    [split; [reflexivity | split; [reflexivity | discriminate]]|].
  destruct (end_t <? start_t); simpl;
    [split; [reflexivity | split; [reflexivity | discriminate]]|].
  destruct (get_sorted_events db name) as [evs|e]; simpl;
    [|split; [reflexivity | split; [reflexivity | discriminate]]].
  destruct (placement_checks evs ev_name start_t end_t); simpl;
    [split; [reflexivity | split; [reflexivity | discriminate]]|].
  destruct (get_id db name) as [uid|e]; simpl;
    [|split; [reflexivity | split; [reflexivity | discriminate]]].
  split; [reflexivity|]. split; [discriminate|].
  intros _. exists uid. auto.
Qed.

(** ** When [add_event] accepts *)

Lemma placement_splits (existing : list Event) (end_t : Z) :
  end_sorted existing ->
  (forall i e, (i < bisect_left (map end_time existing) end_t)%nat ->
               nth_error existing i = Some e -> end_time e < end_t) /\
  (forall i e, (bisect_left (map end_time existing) end_t <= i)%nat ->
               nth_error existing i = Some e -> end_t <= end_time e).
Proof.
  intros Hs.
  destruct (bisect_left_splits (map end_time existing) end_t
              (end_sorted_nth _ Hs)) as [Hlo Hhi].
  split; intros i e Hi He; rewrite <- (nth_end_time _ _ _ He).
  - now apply Hlo.
  - apply Hhi. split; [exact Hi|]. rewrite length_map.
    apply nth_error_Some. congruence.
Qed.

Lemma end_sorted_pair (existing : list Event) (i j : nat) (a b : Event) :
  end_sorted existing -> (i <= j)%nat ->
  nth_error existing i = Some a -> nth_error existing j = Some b ->
  end_time a <= end_time b.
Proof.
  intros Hs Hij Ha Hb.
  rewrite <- (nth_end_time _ _ _ Ha), <- (nth_end_time _ _ _ Hb).
  apply end_sorted_nth; [exact Hs|]. split; [exact Hij|].
  rewrite length_map. apply nth_error_Some. congruence.
Qed.

(** The two checks pass exactly when every event that ends strictly
    before the candidate's end also ends at or before its start. *)
Lemma placement_checks_pass (existing : list Event) (ev_name : string)
  (start_t end_t : Z) :
  end_sorted existing ->
  (placement_checks existing ev_name start_t end_t = None <->
   forall e, In e existing -> end_time e < end_t -> end_time e <= start_t).
Proof.
  intros Hs.
  destruct (placement_splits existing end_t Hs) as [Hlo Hhi].
  pose proof (bisect_left_le_length (map end_time existing) end_t) as Hlen.
  rewrite length_map in Hlen.
  remember (bisect_left (map end_time existing) end_t) as p eqn:Hp.
  split.
  - intros Hpass e Hin Hlt.
    apply In_nth_error in Hin as [i Hi].
    assert (Hip : (i < p)%nat).
    { destruct (Nat.lt_ge_cases i p) as [H|H]; [exact H|].
      specialize (Hhi i e H Hi). lia. }
    destruct (nth_error existing (p - 1)) as [prev|] eqn:Hprev.
    2:{ apply nth_error_None in Hprev. lia. }
    assert (Hle : end_time e <= end_time prev).
    { apply (end_sorted_pair existing i (p - 1)); auto. lia. }
    rewrite placement_checks_previous in Hpass. unfold previous_check in Hpass.
    rewrite <- Hp in Hpass.
    assert (H0 : (0 <? p)%nat = true) by (apply Nat.ltb_lt; lia).
    rewrite H0, Hprev in Hpass.
    destruct (start_t <? end_time prev) eqn:Hc; [discriminate|].
    apply Z.ltb_ge in Hc. lia.
  - intros Hcond.
    destruct (placement_checks existing ev_name start_t end_t) as [err|] eqn:Hc;
      [|reflexivity].
    apply placement_checks_error in Hc as (prev & H0 & Hprev & Hlt & _).
    rewrite <- Hp in H0, Hprev.
    assert (end_time prev < end_t) by (apply (Hlo (p - 1)%nat); auto; lia).
    specialize (Hcond prev (nth_error_In _ _ Hprev)). lia.
Qed.

Lemma add_event_accepted (db : Database) (name ev_name : string)
  (start_t end_t : Z) (days : list (string * bool)) (existing : list Event) :
  username_in name db = true ->
  get_sorted_events db name = Ok existing ->
  (fst (add_event db name ev_name start_t end_t days) = Ok tt <->
   start_t <= end_t /\
   forall e, In e existing -> end_time e < end_t -> end_time e <= start_t).
Proof.
  intros Hu Hs.
  pose proof (get_sorted_events_sorted _ _ _ Hs) as Hsorted.
  destruct (Z_lt_le_dec end_t start_t) as [Hlt|Hle].
  - split; [|intros [? _]; lia].
    unfold add_event. rewrite Hu; simpl.
    apply Z.ltb_lt in Hlt. rewrite Hlt. discriminate.
  - rewrite (add_event_checked _ _ _ _ _ _ _ Hu Hle Hs).
    rewrite <- (placement_checks_pass existing ev_name start_t end_t Hsorted).
    destruct (placement_checks existing ev_name start_t end_t) as [err|];
      simpl.
    + split; [discriminate | intros [_ ?]; discriminate].
    + destruct (get_id_found db name Hu) as (u & _ & _ & ->). simpl.
      split; auto.
Qed.

(** An integer that [sqlite3] binds as an [INTEGER] parameter, a signed
    64-bit value.  With a time outside this range the [INSERT] of line 85
    raises [OverflowError], which [add_event] above leaves out: what is
    said below of the calls that return is said of times in this
    range. *)
Definition sqlite_integer (t : Z) : Prop := - 2 ^ 63 <= t < 2 ^ 63.

(** X6: for integer times that [sqlite3] can store: for a username that
    is not in the store [add_event] raises "Username ... doesn't exist"
    (the user is checked before the range); for a user of the store it
    returns normally exactly when [start <= end] and every event of the
    user's calendar that ends strictly before the candidate's end also
    ends at or before the candidate's start. *)
Theorem add_event_decision (db : Database) (name ev_name : string)
  (start_t end_t : Z) (days : list (string * bool)) :
  sqlite_integer start_t -> sqlite_integer end_t ->
  (username_in name db = false ->
   add_event db name ev_name start_t end_t days =
   (Raise (UsernameDoesNotExist name), db)) /\
  (username_in name db = true ->
   forall existing,
     get_sorted_events db name = Ok existing ->
     (fst (add_event db name ev_name start_t end_t days) = Ok tt <->
      start_t <= end_t /\
      forall e, In e existing -> end_time e < end_t ->
                end_time e <= start_t)).
Proof.
  intros _ _. split.
  - intros H. unfold add_event. now rewrite H.
  - intros Hu existing Hs. now apply add_event_accepted.
Qed.

Lemma add_event_decision_witness :
  sqlite_integer 12 /\ sqlite_integer 18 /\
  username_in "cj" cj_db_AB = true /\
  get_sorted_events cj_db_AB "cj" =
    Ok [cj_event "A" 0 10; cj_event "B" 15 20] /\
  (fst (add_event cj_db_AB "cj" "C" 12 18 []) = Ok tt <->
   12 <= 18 /\
   forall e, In e [cj_event "A" 0 10; cj_event "B" 15 20] ->
             end_time e < 18 -> end_time e <= 12).
Proof.
  assert (H1 : sqlite_integer 12) by (unfold sqlite_integer; lia).
  assert (H2 : sqlite_integer 18) by (unfold sqlite_integer; lia).
  split; [exact H1|]. split; [exact H2|].
  split; [reflexivity|]. split; [reflexivity|].
  exact (proj2 (add_event_decision cj_db_AB "cj" "C" 12 18 [] H1 H2)
           eq_refl [cj_event "A" 0 10; cj_event "B" 15 20] eq_refl).
Defined.

(** X7: for integer times that [sqlite3] can store, an event that
    [add_event] accepts overlaps no event of the calendar that ends
    strictly before it ends; and on an empty calendar every candidate
    with [start <= end] is accepted. *)
Theorem add_event_clear_of_earlier (db : Database) (name ev_name : string)
  (start_t end_t : Z) (days : list (string * bool)) (existing : list Event) :
  sqlite_integer start_t -> sqlite_integer end_t ->
  username_in name db = true ->
  get_sorted_events db name = Ok existing ->
  (fst (add_event db name ev_name start_t end_t days) = Ok tt ->
   forall e, In e existing -> end_time e < end_t ->
             ~ overlaps e (stored_event name ev_name start_t end_t days)) /\
  (existing = [] -> start_t <= end_t ->
   fst (add_event db name ev_name start_t end_t days) = Ok tt).
Proof.
  intros _ _ Hu Hs. split.
  - intros Hok e Hin Hlt [_ Hov]. simpl in Hov.
    apply (add_event_accepted _ _ _ _ _ days _ Hu Hs) in Hok as [_ Hc].
    specialize (Hc e Hin Hlt). lia.
  - intros -> Hle.
    apply (add_event_accepted _ _ _ _ _ days _ Hu Hs).
    split; [exact Hle | intros e []].
Qed.

Lemma add_event_clear_of_earlier_witness :
  sqlite_integer 10 /\ sqlite_integer 15 /\
  username_in "cj" cj_db_AB = true /\
  get_sorted_events cj_db_AB "cj" =
    Ok [cj_event "A" 0 10; cj_event "B" 15 20] /\
  fst (add_event cj_db_AB "cj" "C" 10 15 []) = Ok tt /\
  ~ overlaps (cj_event "A" 0 10) (stored_event "cj" "C" 10 15 []).
Proof.
  assert (H1 : sqlite_integer 10) by (unfold sqlite_integer; lia).
  assert (H2 : sqlite_integer 15) by (unfold sqlite_integer; lia).
  split; [exact H1|]. split; [exact H2|].
  split; [reflexivity|]. split; [reflexivity|]. split; [reflexivity|].
  apply (proj1 (add_event_clear_of_earlier cj_db_AB "cj" "C" 10 15 []
                  [cj_event "A" 0 10; cj_event "B" 15 20]
                  H1 H2 eq_refl eq_refl)).
  - reflexivity.
  - now left.
  - simpl. lia.
Defined.

(** ** Ids and usernames stay distinct *)

Lemma NoDup_map_inj {A B : Type} (f : A -> B) (l : list A) (x y : A) :
  NoDup (map f l) -> In x l -> In y l -> f x = f y -> x = y.
Proof.
  induction l as [|a l IH]; simpl; intros Hnd Hx Hy Heq; [destruct Hx|].
  inversion Hnd as [|? ? Hnotin Hnd']; subst.
  destruct Hx as [->|Hx], Hy as [->|Hy]; auto.
  - exfalso. apply Hnotin. rewrite Heq. now apply in_map.
  - exfalso. apply Hnotin. rewrite <- Heq. now apply in_map.
Qed.

Lemma get_id_row (db : Database) (name : string) (uid : nat) :
  get_id db name = Ok uid ->
  exists u, In u (users db) /\ u_username u = name /\ user_id u = uid.
Proof.
  unfold get_id.
  destruct (find _ (users db)) as [u|] eqn:Hf; [|discriminate].
  apply find_some in Hf as [Hu Heq]. apply String.eqb_eq in Heq.
  intros H; inversion H; subst. eauto.
Qed.

Lemma store_ok_add_user (db : Database) (name password : string) :
  store_ok db -> store_ok (snd (add_user db name password)).
Proof.
  intros (Hn & Hi & Hu & He & Hr & Hx). unfold add_user.
  destruct (username_in name db) eqn:Hin; simpl;
    [repeat split; assumption|].
  unfold store_ok, usernames; simpl.
  rewrite !map_app, length_app; simpl.
  split; [|split; [|split; [|split; [|split]]]]; try assumption.
  - apply NoDup_app; [exact Hn | repeat constructor; intros [] |].
    intros x Hin' [<-|[]].
    apply username_in_iff in Hin'. congruence.
  - apply NoDup_app; [exact Hi | repeat constructor; intros [] |].
    intros x Hin' [<-|[]].
    apply in_map_iff in Hin' as (u & Hid & Hu').
    rewrite Forall_forall in Hu. specialize (Hu u Hu').
    unfold next_rowid in Hid. lia.
  - apply Forall_app; split.
    + eapply Forall_impl; [|exact Hu]. simpl; intros; lia.
    + repeat constructor; simpl. unfold next_rowid. lia.
  - eapply Forall_impl; [|exact Hx]. simpl; intros; lia.
Qed.

Lemma store_ok_add_event (db : Database) (name ev_name : string)
  (start_t end_t : Z) (days : list (string * bool)) :
  store_ok db -> store_ok (snd (add_event db name ev_name start_t end_t days)).
Proof.
  intros Hok.
  destruct (add_event_effect db name ev_name start_t end_t days)
    as (Hus & Hraise & Hdone).
  destruct (fst (add_event db name ev_name start_t end_t days))
    as [[]|err] eqn:Hres.
  - destruct (Hdone eq_refl) as (uid & Hid & Hev & Hrec).
    destruct Hok as (Hn & Hi & Hu & He & Hr & Hx).
    unfold store_ok, usernames. rewrite Hus, Hev, Hrec, length_app; simpl.
    split; [exact Hn|]. split; [exact Hi|]. split; [exact Hu|].
    split; [|split]; apply Forall_app; split;
      try (repeat constructor; simpl; unfold next_rowid; lia).
    + eapply Forall_impl; [|exact He]. simpl; intros; lia.
    + eapply Forall_impl; [|exact Hr]. simpl; intros; lia.
    + exact Hx.
    + apply get_id_row in Hid as (u0 & Hu0 & _ & <-).
      rewrite Forall_forall in Hu. repeat constructor; simpl. now apply Hu.
  - now rewrite (Hraise err eq_refl).
Qed.

(** X8: the empty store has distinct usernames and user ids and no id
    (of a row, or of the user an event belongs to) beyond the size of its
    table, and [add_user] and [add_event] keep it so, whether they return
    or raise.  In such a store two usernames with
    the same id are the same username. *)
Theorem store_ok_kept :
  store_ok empty_db /\
  (forall db name password,
     store_ok db -> store_ok (snd (add_user db name password))) /\
  (forall db name ev_name start_t end_t days,
     store_ok db ->
     store_ok (snd (add_event db name ev_name start_t end_t days))) /\
  (forall db a b uid,
     store_ok db -> get_id db a = Ok uid -> get_id db b = Ok uid -> a = b).
Proof.
  split; [|split; [|split]].
  - unfold store_ok; simpl. repeat split; constructor.
  - apply store_ok_add_user.
  - apply store_ok_add_event.
  - intros db a b uid (_ & Hi & _) Ha Hb.
    apply get_id_row in Ha as (u & Hu & <- & Hid).
    apply get_id_row in Hb as (u' & Hu' & <- & Hid').
    f_equal. apply (NoDup_map_inj user_id (users db)); auto. congruence.
Qed.

(** ** Reading back what [add_event] stored *)



Lemma flat_map_nil {A B : Type} (f : A -> list B) (l : list A) :
  (forall x, In x l -> f x = []) -> flat_map f l = [].
Proof.
  induction l as [|x l IH]; simpl; intros H; [reflexivity|].
  rewrite (H x (or_introl eq_refl)), IH; auto.
Qed.





(** ** More on the sweep *)

Lemma filter_all {A : Type} (f : A -> bool) (l : list A) :
  Forall (fun x => f x = true) l -> filter f l = l.
Proof.
  induction 1 as [|x l Hx _ IH]; simpl; [reflexivity|].
  now rewrite Hx, IH.
Qed.

(** X10: on a calendar in ascending order of [end_time], the slice of
    line 144 keeps exactly the events that end after the pointer, in
    their order. *)
Theorem drop_finished_keeps_unfinished (ptr : Z) (evs : list Event) :
  end_sorted evs ->
  drop_finished ptr evs = filter (fun e => end_time e >? ptr) evs.
Proof.
  unfold end_sorted. induction 1 as [|e evs Hs IH He]; simpl; [reflexivity|].
  destruct (end_time e >? ptr) eqn:Hc; [|exact IH].
  f_equal. symmetry. apply filter_all.
  eapply Forall_impl; [|exact He]. simpl. intros x Hx.
  rewrite Z.gtb_ltb in *. apply Z.ltb_lt in Hc. apply Z.ltb_lt. lia.
Qed.

Lemma drop_finished_keeps_unfinished_witness :
  end_sorted [cj_event "A" 0 5; cj_event "B" 6 9; cj_event "C" 9 12] /\
  drop_finished 5 [cj_event "A" 0 5; cj_event "B" 6 9; cj_event "C" 9 12] =
    [cj_event "B" 6 9; cj_event "C" 9 12].
Proof.
  assert (H : end_sorted
                [cj_event "A" 0 5; cj_event "B" 6 9; cj_event "C" 9 12])
    by (repeat constructor; simpl; lia).
  split; [exact H|].
  rewrite (drop_finished_keeps_unfinished 5 _ H). reflexivity.
Defined.

(** X11: for calendars that are each in ascending order of [start_time]
    (events may overlap or have zero length), the sweep returns a result
    in which every time of the window is either inside an emitted window
    and free for every user, or outside all of them and busy for some
    user. *)
Theorem sweep_free_time_when_start_sorted (cals : list (list Event))
  (start_t end_t : Z) :
  Forall start_sorted cals ->
  exists out,
    sweep cals start_t end_t = Some out /\
    forall t, start_t <= t < end_t -> classified cals out t.
Proof.
  intros Hs. destruct (sweep_returns cals start_t end_t) as [out Hout].
  exists out. split; [exact Hout|].
  now apply (sweep_classifies cals start_t end_t).
Qed.

Lemma sweep_free_time_when_start_sorted_witness :
  Forall start_sorted [[cj_event "A" 0 10; cj_event "B" 5 12]] /\
  exists out,
    sweep [[cj_event "A" 0 10; cj_event "B" 5 12]] 0 20 = Some out /\
    forall t, 0 <= t < 20 ->
      classified [[cj_event "A" 0 10; cj_event "B" 5 12]] out t.
Proof.
  assert (H : Forall start_sorted [[cj_event "A" 0 10; cj_event "B" 5 12]])
    by (repeat constructor; simpl; lia).
  split; [exact H|].
  exact (sweep_free_time_when_start_sorted _ 0 20 H).
Defined.

(** X12: for calendars in ascending order of [start_time], when some user
    is busy at every time of the window the result is the empty list. *)
Theorem sweep_all_busy (cals : list (list Event)) (start_t end_t : Z) :
  Forall start_sorted cals ->
  (forall t, start_t <= t < end_t -> busy_at cals t) ->
  sweep cals start_t end_t = Some [].
Proof.
  intros Hs Hbusy. destruct (sweep_returns cals start_t end_t) as [out Hout].
  rewrite Hout. f_equal.
  destruct out as [|w out]; [reflexivity|]. exfalso.
  destruct (sweep_windows_bounded _ _ _ _ Hout) as [Hw _].
  inversion Hw as [|? ? (H1 & H2 & H3) _]; subst.
  assert (Ht : start_t <= start_time w < end_t) by lia.
  destruct (sweep_classifies _ _ _ _ Hs Hout _ Ht) as [[_ Hfree] | [Hno _]].
  - apply Hfree. now apply Hbusy.
  - apply Hno. exists w. split; [now left|]. unfold covers. lia.
Qed.

Lemma sweep_all_busy_witness :
  Forall start_sorted
    [[cj_event "A" 0 6]; [stef_event "B" 4 10]; [cj_event "C" 0 10]] /\
  sweep [[cj_event "A" 0 6]; [stef_event "B" 4 10]; [cj_event "C" 0 10]]
    0 10 = Some [].
Proof.
  assert (H : Forall start_sorted
            [[cj_event "A" 0 6]; [stef_event "B" 4 10]; [cj_event "C" 0 10]])
    by (repeat constructor).
  split; [exact H|].
  apply (sweep_all_busy _ 0 10 H).
  intros t Ht. exists [cj_event "C" 0 10], (cj_event "C" 0 10).
  split; [right; right; now left|]. split; [now left|].
  unfold covers; simpl. lia.
Defined.

Lemma drop_finished_all (ptr : Z) (evs : list Event) :
  Forall (fun e => end_time e <= ptr) evs -> drop_finished ptr evs = [].
Proof.
  induction 1 as [|e evs He _ IH]; simpl; [reflexivity|].
  destruct (end_time e >? ptr) eqn:Hc; [|exact IH].
  rewrite Z.gtb_ltb in Hc. apply Z.ltb_lt in Hc. lia.
Qed.

(** X13: when every event of every calendar ends at or before the start
    of a non-empty window (in particular with no calendar at all, or with
    calendars that hold no event), the result is the single window
    [[windowStart, windowEnd)]. *)
Theorem sweep_nothing_ahead (cals : list (list Event)) (start_t end_t : Z) :
  Forall (Forall (fun e => end_time e <= start_t)) cals ->
  start_t < end_t ->
  sweep cals start_t end_t = Some [free_time start_t end_t].
Proof.
  intros Hdone Hlt. unfold sweep. simpl.
  apply Z.ltb_lt in Hlt as Hc. rewrite Hc.
  assert (Hdrop : map (drop_finished start_t) cals = map (fun _ => []) cals).
  { apply map_ext_in. intros c Hin. rewrite Forall_forall in Hdone.
    now apply drop_finished_all, Hdone. }
  assert (Hfree : Forall (front_free start_t) cals).
  { rewrite Forall_forall in *. intros c Hin. unfold front_free.
    now rewrite (drop_finished_all _ _ (Hdone c Hin)). }
  unfold sweep_pass. simpl.
  rewrite (scan_calendars_free _ _ Hfree), Hdrop.
  replace (front_starts (map (fun _ => []) cals)) with (@nil Z).
  - simpl. destruct (start_t =? end_t) eqn:He; [|reflexivity].
    apply Z.eqb_eq in He. lia.
  - clear. induction cals; simpl; auto.
Qed.

Lemma sweep_nothing_ahead_witness :
  Forall (Forall (fun e => end_time e <= 30)) [[cj_event "A" 0 30]; []] /\
  30 < 60 /\
  sweep [[cj_event "A" 0 30]; []] 30 60 = Some [free_time 30 60].
Proof.
  assert (H : Forall (Forall (fun e => end_time e <= 30))
                [[cj_event "A" 0 30]; []])
    by (repeat constructor; simpl; lia).
  split; [exact H|]. split; [lia|].
  apply (sweep_nothing_ahead _ 30 60 H). lia.
Defined.

(** X14: every event the sweep returns is a "Free Time" event with the
    empty username and all seven day flags off. *)
Theorem sweep_emits_free_time (cals : list (list Event)) (start_t end_t : Z) :
  exists out,
    sweep cals start_t end_t = Some out /\
    Forall (fun w => w = free_time (start_time w) (end_time w)) out.
Proof.
  destruct (sweep_returns cals start_t end_t) as [out Hout].
  exists out. split; [exact Hout|]. unfold sweep in Hout.
  eapply (sweep_loop_invariant end_t
            (fun st => Forall (fun w => w = free_time (start_time w)
                                                      (end_time w))
                         (overlapping_times st))
            (Forall (fun w => w = free_time (start_time w) (end_time w))));
    [ | | | | exact Hout].
  - intros st st' Hinv _ Hp.
    destruct (sweep_pass_continue _ _ _ Hp) as [_ [(-> & _) | (-> & _)]];
      [exact Hinv|].
    apply Forall_app; split; [exact Hinv | repeat constructor].
  - intros st out' Hinv _ Hb. apply sweep_pass_break in Hb as [_ ->].
    destruct (negb _); [|exact Hinv].
    apply Forall_app; split; [exact Hinv | repeat constructor].
  - intros st Hinv _. exact Hinv.
  - constructor.
Qed.

(** ** [get_inverse_schedule] on the store *)

Lemma fetch_calendars_known (db : Database) (friend_names : list string) :
  Forall (fun f => username_in f db = true) friend_names ->
  exists cals,
    fetch_calendars db friend_names = Ok cals /\
    Forall2 (fun f evs => get_sorted_events db f = Ok evs) friend_names cals.
Proof.
  induction 1 as [|f fs Hf _ (cals & IH & Hall)]; simpl.
  - exists []. split; [reflexivity | constructor].
  - destruct (get_sorted_events db f) as [evs|e] eqn:Hget.
    + rewrite IH. exists (evs :: cals). split; [reflexivity|].
      constructor; assumption.
    + unfold get_sorted_events in Hget. rewrite Hf in Hget. discriminate.
Qed.

Lemma fetch_calendars_unknown (db : Database) (before : list string)
  (f : string) (after : list string) :
  Forall (fun f => username_in f db = true) before ->
  username_in f db = false ->
  fetch_calendars db (before ++ f :: after) =
  Raise (UsernameDoesNotExist f).
Proof.
  intros Hknown Hf.
  induction Hknown as [|g gs Hg _ IH]; simpl.
  - unfold get_sorted_events. now rewrite Hf.
  - unfold get_sorted_events at 1. rewrite Hg; simpl. now rewrite IH.
Qed.

(** X15: when every queried username is in the store,
    [get_inverse_schedule] returns the windows of the sweep over the
    calendars that [get_sorted_events] returns for the queried names, one
    per name and in the order of the names; when one is not, it raises
    "Username ... doesn't exist" for the first such name of the list,
    whatever the window is. *)
Theorem get_inverse_schedule_friends (db : Database)
  (friend_names : list string) (start_t end_t : Z) :
  (Forall (fun f => username_in f db = true) friend_names ->
   exists cals out,
     Forall2 (fun f evs => get_sorted_events db f = Ok evs)
       friend_names cals /\
     sweep cals start_t end_t = Some out /\
     get_inverse_schedule db friend_names start_t end_t = Ok (Some out)) /\
  (forall before f after,
     friend_names = before ++ f :: after ->
     Forall (fun f => username_in f db = true) before ->
     username_in f db = false ->
     get_inverse_schedule db friend_names start_t end_t =
     Raise (UsernameDoesNotExist f)).
Proof.
  split.
  - intros Hknown.
    destruct (fetch_calendars_known db friend_names Hknown)
      as (cals & Hfetch & Hall).
    destruct (sweep_returns cals start_t end_t) as [out Hout].
    exists cals, out. unfold get_inverse_schedule.
    rewrite Hfetch, Hout. auto.
  - intros before f after -> Hknown Hf. unfold get_inverse_schedule.
    now rewrite (fetch_calendars_unknown db before f after Hknown Hf).
Qed.

(** ** Friends *)

(** A store with the users [cj] and [stef] and no friends. *)
Definition two_friends_store : Store :=
  mkStore (snd (add_user cj_db "stef" "pw")) [].

(** The usernames the join gives for one row of [friends]. *)
Definition friends_of_row (us : list UserRow) (name : string)
  (r : FriendRow) : list string :=
  flat_map (fun u =>
    if (Nat.eqb (f_user_id r) (user_id u) && String.eqb (u_username u) name)%bool
    then
      flat_map (fun f =>
        if Nat.eqb (f_friend_id r) (user_id f) then [u_username f] else [])
        us
    else [])
    us.

Lemma get_friends_by_row (s : Store) (name : string) :
  get_friends s name =
  flat_map (friends_of_row (users (tables s)) name) (friends s).
Proof. reflexivity. Qed.

Lemma friends_of_row_In (us : list UserRow) (name : string) (r : FriendRow)
  (x : string) :
  In x (friends_of_row us name r) <->
  exists u f, In u us /\ In f us /\
              f_user_id r = user_id u /\ u_username u = name /\
              f_friend_id r = user_id f /\ u_username f = x.
Proof.
  unfold friends_of_row. rewrite in_flat_map. split.
  - intros (u & Hu & Hx).
    destruct (Nat.eqb_spec (f_user_id r) (user_id u)) as [Hid|];
      [|destruct Hx].
    destruct (String.eqb_spec (u_username u) name) as [Hn|]; [|destruct Hx].
    simpl in Hx. apply in_flat_map in Hx as (f & Hf & Hx).
    destruct (Nat.eqb_spec (f_friend_id r) (user_id f)) as [Hfid|];
      [|destruct Hx].
    destruct Hx as [<-|[]]. exists u, f. repeat split; assumption.
  - intros (u & f & Hu & Hf & Hid & Hn & Hfid & Hx).
    exists u. split; [exact Hu|].
    rewrite Hid, Nat.eqb_refl, Hn, String.eqb_refl. simpl.
    apply in_flat_map. exists f. split; [exact Hf|].
    rewrite Hfid, Nat.eqb_refl. now left.
Qed.

(** With distinct ids, the row of the user with a given id decides what
    a join on that id gives. *)
Lemma flat_map_user_with_id {B : Type} (us : list UserRow) (u0 : UserRow)
  (g : UserRow -> bool) (h : UserRow -> list B) :
  NoDup (map user_id us) -> In u0 us ->
  flat_map (fun u => if (Nat.eqb (user_id u0) (user_id u) && g u)%bool
                     then h u else []) us =
  if g u0 then h u0 else [].
Proof.
  induction us as [|u us IH]; simpl; intros Hnd Hin; [destruct Hin|].
  inversion Hnd as [|? ? Hnotin Hnd']; subst.
  destruct Hin as [->|Hin].
  - rewrite Nat.eqb_refl. simpl.
    rewrite flat_map_nil; [now rewrite app_nil_r|].
    intros x Hx.
    destruct (Nat.eqb (user_id u0) (user_id x)) eqn:Heq; [|reflexivity].
    apply Nat.eqb_eq in Heq. exfalso. apply Hnotin.
    rewrite Heq. now apply in_map.
  - destruct (Nat.eqb (user_id u0) (user_id u)) eqn:Heq.
    + apply Nat.eqb_eq in Heq. exfalso. apply Hnotin.
      rewrite <- Heq. now apply in_map.
    + simpl. now apply IH.
Qed.

(** What [add_friend] does once both ids are found. *)
Lemma add_friend_found (s : Store) (name friend_username : string)
  (uid fid : nat) :
  get_id (tables s) name = Ok uid ->
  get_id (tables s) friend_username = Ok fid ->
  add_friend s name friend_username =
  if friend_row_in uid fid (friends s)
  then (AlreadyFriend friend_username name, s)
  else (Befriended, mkStore (tables s) (friends s ++ [mkFriendRow uid fid])).
Proof. intros Hu Hf. unfold add_friend. now rewrite Hu, Hf. Qed.

Lemma add_friend_befriended (s : Store) (name friend_username : string) :
  fst (add_friend s name friend_username) = Befriended ->
  exists uid fid,
    get_id (tables s) name = Ok uid /\
    get_id (tables s) friend_username = Ok fid /\
    friend_row_in uid fid (friends s) = false /\
    snd (add_friend s name friend_username) =
    mkStore (tables s) (friends s ++ [mkFriendRow uid fid]).
Proof.
  unfold add_friend.
  destruct (get_id (tables s) name) as [uid|]; [|discriminate].
  destruct (get_id (tables s) friend_username) as [fid|]; [|discriminate].
  destruct (friend_row_in uid fid (friends s)) eqn:Hrow; [discriminate|].
  intros _. exists uid, fid. auto.
Qed.

(** X16: [add_friend] never touches the tables of users and events, and
    a call that does not return normally leaves the whole store as it
    was.  An unknown username raises "User ... doesn't exist", the user's
    before the friend's; with both known the call returns or raises
    "... is already a friend of ..."; and straight after a call that
    returned, the same call raises that error. *)
Theorem add_friend_outcomes (s : Store) (name friend_username : string) :
  tables (snd (add_friend s name friend_username)) = tables s /\
  (fst (add_friend s name friend_username) <> Befriended ->
   snd (add_friend s name friend_username) = s) /\
  (username_in name (tables s) = false ->
   fst (add_friend s name friend_username) =
   LookupRaised (UserDoesNotExist name)) /\
  (username_in name (tables s) = true ->
   username_in friend_username (tables s) = false ->
   fst (add_friend s name friend_username) =
   LookupRaised (UserDoesNotExist friend_username)) /\
  (username_in name (tables s) = true ->
   username_in friend_username (tables s) = true ->
   fst (add_friend s name friend_username) = Befriended \/
   fst (add_friend s name friend_username) =
   AlreadyFriend friend_username name) /\
  (fst (add_friend s name friend_username) = Befriended ->
   add_friend (snd (add_friend s name friend_username)) name friend_username
   = (AlreadyFriend friend_username name,
      snd (add_friend s name friend_username))).
Proof.
  split; [|split; [|split; [|split; [|split]]]].
  - unfold add_friend.
    destruct (get_id (tables s) name); [|reflexivity].
    destruct (get_id (tables s) friend_username); [|reflexivity].
    destruct (friend_row_in _ _ _); reflexivity.
  - unfold add_friend.
    destruct (get_id (tables s) name); [|reflexivity].
    destruct (get_id (tables s) friend_username); [|reflexivity].
    destruct (friend_row_in _ _ _); simpl; [reflexivity | congruence].
  - intros H. unfold add_friend. now rewrite (get_id_missing _ _ H).
  - intros Hu Hf. unfold add_friend.
    destruct (get_id_found _ _ Hu) as (u & _ & _ & ->).
    now rewrite (get_id_missing _ _ Hf).
  - intros Hu Hf.
    destruct (get_id_found _ _ Hu) as (u & _ & _ & Hid).
    destruct (get_id_found _ _ Hf) as (f & _ & _ & Hfid).
    rewrite (add_friend_found _ _ _ _ _ Hid Hfid).
    destruct (friend_row_in _ _ _); auto.
  - intros Hok.
    apply add_friend_befriended in Hok as (uid & fid & Hu & Hf & _ & ->).
    rewrite (add_friend_found _ _ _ uid fid) by assumption.
    simpl. unfold friend_row_in. rewrite existsb_app. simpl.
    now rewrite !Nat.eqb_refl, orb_true_r.
Qed.

(** What [get_friends] returns after a call of [add_friend] that
    returned, in the order of the table. *)
Lemma get_friends_add_friend (s : Store) (name friend_username : string)
  (other : string) :
  store_ok (tables s) ->
  fst (add_friend s name friend_username) = Befriended ->
  get_friends (snd (add_friend s name friend_username)) other =
  get_friends s other ++
  (if String.eqb name other then [friend_username] else []).
Proof.
  intros (_ & Hids & _) Hok.
  apply add_friend_befriended in Hok as (uid & fid & Hu & Hf & _ & ->).
  apply get_id_row in Hu as (u0 & Hu0 & Hname & Huid).
  apply get_id_row in Hf as (f0 & Hf0 & Hfname & Hfid).
  rewrite !get_friends_by_row. simpl.
  rewrite flat_map_app. simpl. rewrite app_nil_r. f_equal.
  unfold friends_of_row. simpl. rewrite <- Huid.
  rewrite (flat_map_user_with_id (users (tables s)) u0
             (fun u => String.eqb (u_username u) other)) by assumption.
  rewrite Hname. destruct (String.eqb name other); [|reflexivity].
  rewrite <- Hfid.
  rewrite (flat_map_ext _
    (fun f => if (Nat.eqb (user_id f0) (user_id f) && true)%bool
              then [u_username f] else []))
    by (intros; now rewrite andb_true_r).
  rewrite (flat_map_user_with_id (users (tables s)) f0 (fun _ => true))
    by assumption.
  now rewrite Hfname.
Qed.

(** X17: in a store with distinct ids, after [add_friend] has returned,
    [get_friends] of the user holds the usernames it held before and the
    friend's username once more, and [get_friends] of every other
    username (the friend's too) holds the usernames it held before; the
    order of the lists is left open. *)
Theorem add_friend_then_get_friends (s : Store)
  (name friend_username : string) :
  store_ok (tables s) ->
  fst (add_friend s name friend_username) = Befriended ->
  Permutation
    (get_friends (snd (add_friend s name friend_username)) name)
    (friend_username :: get_friends s name) /\
  (forall other, other <> name ->
     Permutation
       (get_friends (snd (add_friend s name friend_username)) other)
       (get_friends s other)).
Proof.
  intros Hstore Hok. split.
  - rewrite (get_friends_add_friend _ _ _ _ Hstore Hok), String.eqb_refl.
    rewrite Permutation_app_comm. reflexivity.
  - intros other Hne.
    rewrite (get_friends_add_friend _ _ _ _ Hstore Hok).
    apply not_eq_sym, String.eqb_neq in Hne. rewrite Hne.
    now rewrite app_nil_r.
Qed.

Lemma two_friends_store_ok : store_ok (tables two_friends_store).
Proof.
  unfold store_ok; simpl.
  repeat split; repeat constructor; simpl; auto; intuition discriminate.
Qed.

Lemma add_friend_then_get_friends_witness :
  store_ok (tables two_friends_store) /\
  fst (add_friend two_friends_store "cj" "stef") = Befriended /\
  Permutation
    (get_friends (snd (add_friend two_friends_store "cj" "stef")) "cj")
    ["stef"%string] /\
  Permutation
    (get_friends (snd (add_friend two_friends_store "cj" "stef")) "stef")
    [].
Proof.
  split; [exact two_friends_store_ok|]. split; [reflexivity|].
  destruct (add_friend_then_get_friends two_friends_store "cj" "stef"
              two_friends_store_ok eq_refl) as [H1 H2].
  split; [exact H1|]. apply H2. discriminate.
Defined.

(** X18: in a store with distinct usernames and ids, for two usernames of
    the store, [add_friend] raises "... is already a friend of ..."
    exactly when [get_friends] of the user lists the friend. *)
Theorem add_friend_already_listed (s : Store) (name friend_username : string) :
  store_ok (tables s) ->
  username_in name (tables s) = true ->
  username_in friend_username (tables s) = true ->
  (fst (add_friend s name friend_username) =
     AlreadyFriend friend_username name <->
   In friend_username (get_friends s name)).
Proof.
  intros (Hnames & Hids & _) Hu Hf.
  destruct (get_id_found _ _ Hu) as (u0 & Hu0 & Hname & Hid).
  destruct (get_id_found _ _ Hf) as (f0 & Hf0 & Hfname & Hfid).
  rewrite (add_friend_found _ _ _ _ _ Hid Hfid).
  rewrite get_friends_by_row, in_flat_map.
  assert (Hrow : friend_row_in (user_id u0) (user_id f0) (friends s) = true
                 <-> exists r, In r (friends s) /\
                      In friend_username
                        (friends_of_row (users (tables s)) name r)).
  { unfold friend_row_in. rewrite existsb_exists. split.
    - intros (r & Hr & Heq). apply andb_true_iff in Heq as [H1 H2].
      apply Nat.eqb_eq in H1, H2. exists r. split; [exact Hr|].
      apply friends_of_row_In. exists u0, f0. repeat split; assumption.
    - intros (r & Hr & Hin).
      apply friends_of_row_In in Hin
        as (u & f & Hu' & Hf' & H1 & H2 & H3 & H4).
      assert (u = u0).
      { apply (NoDup_map_inj u_username (users (tables s))); auto.
        congruence. }
      assert (f = f0).
      { apply (NoDup_map_inj u_username (users (tables s))); auto.
        congruence. }
      subst. exists r. split; [exact Hr|].
      rewrite H1, H3, !Nat.eqb_refl. reflexivity. }
  destruct (friend_row_in (user_id u0) (user_id f0) (friends s)) eqn:Hc;
    simpl.
  - split; [intros _; now apply Hrow | reflexivity].
  - split; [discriminate|]. intros H. apply Hrow in H. discriminate.
Qed.

Lemma add_friend_already_listed_witness :
  store_ok (tables two_friends_store) /\
  username_in "cj" (tables two_friends_store) = true /\
  username_in "stef" (tables two_friends_store) = true /\
  fst (add_friend two_friends_store "cj" "stef") <>
    AlreadyFriend "stef" "cj".
Proof.
  split; [exact two_friends_store_ok|].
  split; [reflexivity|]. split; [reflexivity|].
  intros H.
  apply (add_friend_already_listed two_friends_store "cj" "stef"
           two_friends_store_ok eq_refl eq_refl) in H.
  destruct H.
Defined.

(** X19: [get_friends] raises nothing: for a username that is not in the
    store, and for any username when the table [friends] is empty, it
    returns the empty list; and every username it returns is one of the
    store. *)
Theorem get_friends_lists_users (s : Store) (name : string) :
  (username_in name (tables s) = false -> get_friends s name = []) /\
  (friends s = [] -> get_friends s name = []) /\
  (forall x, In x (get_friends s name) ->
             username_in x (tables s) = true).
Proof.
  split; [|split].
  - intros H. rewrite get_friends_by_row. apply flat_map_nil. intros r _.
    unfold friends_of_row. apply flat_map_nil. intros u Hu.
    destruct (String.eqb_spec (u_username u) name) as [Hn|];
      [|now rewrite andb_false_r].
    assert (username_in name (tables s) = true).
    { apply username_in_iff. unfold usernames. apply in_map_iff. eauto. }
    congruence.
  - intros H. rewrite get_friends_by_row. now rewrite H.
  - intros x Hx. rewrite get_friends_by_row in Hx.
    apply in_flat_map in Hx as (r & _ & Hx).
    apply friends_of_row_In in Hx as (u & f & _ & Hf & _ & _ & _ & <-).
    apply username_in_iff. unfold usernames. now apply in_map.
Qed.

(** ** The calendar of a new user *)





(** ** Where the windows begin and end *)

(** [t] is the start or the end of an event of the calendars. *)
Definition event_bound (cals : list (list Event)) (t : Z) : Prop :=
  exists c e, In c cals /\ In e c /\ (start_time e = t \/ end_time e = t).

(** The pointer and the bounds of the windows gathered so far are bounds
    of the query window or of events. *)
Definition on_bounds (cals : list (list Event)) (start_t end_t : Z)
  (st : SweepState) : Prop :=
  Forall2 (trimmed (pointer st)) cals (events_list st) /\
  (pointer st = start_t \/ event_bound cals (pointer st)) /\
  Forall (fun w =>
            (start_time w = start_t \/ event_bound cals (start_time w)) /\
            (end_time w = end_t \/
             exists c e, In c cals /\ In e c /\ start_time e = end_time w))
    (overlapping_times st).

Lemma on_bounds_pass (cals : list (list Event)) (start_t end_t : Z)
  (st st' : SweepState) :
  on_bounds cals start_t end_t st ->
  sweep_pass end_t st = Continue st' ->
  on_bounds cals start_t end_t st'.
Proof.
  intros (Htrim & Hptr & Hw) Hp.
  pose proof (trimmed_pass _ _ _ _ Htrim Hp) as Htrim'.
  split; [exact Htrim'|].
  destruct (sweep_pass_continue _ _ _ Hp)
    as [_ [(Hout & e & rest & Hin & _ & Hnew)
          | (Hout & _ & _ & e & rest & Hin & Hnew & _)]];
    destruct (trimmed_held _ _ _ _ _ Htrim' Hin (or_introl eq_refl))
      as (c & Hc & Hec).
  - rewrite Hout. split; [|exact Hw].
    right. exists c, e. auto.
  - rewrite Hout. split; [right; exists c, e; auto|].
    apply Forall_app; split; [exact Hw|].
    constructor; [|constructor]. simpl. split; [exact Hptr|].
    destruct (Z.min_spec (pointer st') end_t) as [[_ ->] | [_ ->]];
      [right; exists c, e; auto | now left].
Qed.

(** X21: every window of the result starts at the start of the query
    window or at a start or an end of some event of the calendars, and
    ends at the end of the query window or at the start of some event. *)
Theorem sweep_windows_on_bounds (cals : list (list Event))
  (start_t end_t : Z) :
  exists out,
    sweep cals start_t end_t = Some out /\
    Forall (fun w =>
              (start_time w = start_t \/ event_bound cals (start_time w)) /\
              (end_time w = end_t \/
               exists c e, In c cals /\ In e c /\
                           start_time e = end_time w)) out.
Proof.
  destruct (sweep_returns cals start_t end_t) as [out Hout].
  exists out. split; [exact Hout|]. unfold sweep in Hout.
  eapply (sweep_loop_invariant end_t (on_bounds cals start_t end_t)
            (Forall (fun w =>
               (start_time w = start_t \/ event_bound cals (start_time w)) /\
               (end_time w = end_t \/
                exists c e, In c cals /\ In e c /\
                            start_time e = end_time w))));
    [ | | | | exact Hout].
  - intros st st' Hinv _. now apply on_bounds_pass.
  - intros st out' (_ & Hptr & Hw) _ Hb.
    apply sweep_pass_break in Hb as [_ ->].
    destruct (negb _); [|exact Hw].
    apply Forall_app; split; [exact Hw|].
    constructor; [|constructor]. simpl. split; [exact Hptr | now left].
  - intros st (_ & _ & Hw) _. exact Hw.
  - unfold on_bounds; simpl.
    split; [apply Forall2_trimmed_refl|]. split; [now left | constructor].
Qed.
